(** * lazygit, pkg/commands/oscommands/os.go: the OS facade and the pipeline engine

    A shallow embedding of [OSCommand]'s file, clipboard and pipeline
    operations.  The outside world (the file system, the clipboard, the
    processes of a pipeline) is explicit: a finite map of files, records of
    the results the operating system gives, and a trace of the calls made to
    the logger, the observer and the shell.  Go strings are byte strings and
    are modelled by [string]; a Go [error] that may be nil is an
    [option error]. *)

From Stdlib Require Import Ascii String List Arith ZArith Lia Bool Permutation.
From stdpp Require Import base option list strings gmap.

Local Open Scope stdpp_scope.

(** ** Errors and results *)

(** Go error values.  [ErrNotExist] and [ErrPermission] are the two classes
    of [os] errors the code tells apart; every other error is carried by its
    message.  [Wrapped] is an error with a stack trace attached. *)
Inductive error : Type :=
  | ErrNotExist
  | ErrPermission
  | ErrOther (msg : string)
  | Wrapped (e : error).

(** A Go result pair [(v, err)]. *)
Inductive result (A : Type) : Type :=
  | Ok (v : A)
  | Err (e : error).
Arguments Ok {A} v.
Arguments Err {A} e.

(** [os.IsNotExist]. *)
Definition IsNotExist (e : error) : bool :=
  match e with
  | ErrNotExist => true
  | _ => false
  end.

(** The bytes the code names. *)
Definition LF : ascii := "010"%char.
Definition CR : ascii := "013"%char.
Definition newline : string := String LF EmptyString.
Definition crlf : string := String CR newline.

(** ** Strings *)

(** [len(s) > 0] on a Go string. *)
Definition nonempty (s : string) : bool :=
  match s with
  | EmptyString => false
  | String _ _ => true
  end.

(** [strings.Join]. *)
Fixpoint Join (elems : list string) (sep : string) : string :=
  match elems with
  | [] => EmptyString
  | [e] => e
  | e :: rest => e +:+ sep +:+ Join rest sep
  end.

(** [strings.ReplaceAll s old new] for a non-empty [old]: a scan from the
    left that replaces each occurrence of [old] and resumes after it, so
    that the occurrences replaced do not overlap.  [skip] counts the bytes
    of a matched occurrence still to be passed over. *)
Fixpoint replace_from (old new : string) (skip : nat) (s : string) : string :=
  match s with
  | EmptyString => EmptyString
  | String c s' =>
      match skip with
      | S k => replace_from old new k s'
      | O =>
          if String.prefix old s
          then new +:+ replace_from old new (String.length old - 1) s'
          else String c (replace_from old new 0 s')
      end
  end.

Definition ReplaceAll (s old new : string) : string :=
  replace_from old new 0 s.

(** Does [s] contain the two bytes CR LF somewhere? *)
Fixpoint has_crlf (s : string) : bool :=
  match s with
  | EmptyString => false
  | String _ s' => String.prefix crlf s || has_crlf s'
  end.

(** The pieces of [s] between its CR LF pairs, found from the left. *)
Definition push_byte (c : ascii) (parts : list string) : list string :=
  match parts with
  | [] => [String c EmptyString]
  | p :: rest => String c p :: rest
  end.

Fixpoint split_crlf (s : string) : list string :=
  match s with
  | EmptyString => [EmptyString]
  | String c s' =>
      match s' with
      | EmptyString => [String c EmptyString]
      | String d s'' =>
          if Ascii.eqb c CR && Ascii.eqb d LF
          then EmptyString :: split_crlf s''
          else push_byte c (split_crlf s')
      end
  end.

(** The last byte of a string, as [f.ReadAt(buf, size-1)] delivers it. *)
Definition last_byte (s : string) : option ascii :=
  String.get (String.length s - 1) s.

(** ** The trace of calls to the outside *)

Inductive event : Type :=
  | EvLogInfo (cmdStr : string)                   (* c.Log.WithField("command", cmdStr).Info("RunCommand") *)
  | EvObserver (cmdStr : string) (commandLine : bool) (* c.guiIO.logCommandFn(cmdStr, commandLine) *)
  | EvLogError (e : error)                        (* c.Log.Error(err) *)
  | EvShell (cmdStr shellFunctionsFile : string)  (* c.Cmd.NewShell(cmdStr, file) run *)
  | EvClipboardRead                               (* clipboard.ReadAll() *)
  | EvClipboardWrite (str : string)               (* clipboard.WriteAll(str) *)
  | EvStart (stage : nat)                         (* cmd.Start() of a pipeline stage *)
  | EvWait (stage : nat).                         (* cmd.Wait() of a pipeline stage *)

(** [OSCommand.LogCommand]. *)
Definition LogCommand (cmdStr : string) (commandLine : bool) : list event :=
  [EvLogInfo cmdStr; EvObserver cmdStr commandLine].

(** ** The file system *)

(** Regular files by path, with their contents. *)
Abbreviation FS := (gmap string string).

(** What the operating system answers to the calls of one facade operation,
    beyond what the files themselves decide: [None] is no failure.  A failed
    write may have written a prefix of its data. *)
Record IOFaults : Type := {
  open_fault : option error;
  stat_fault : option error;
  readat_fault : option error;
  sep_write_fault : option (nat * error);
  line_write_fault : option (nat * error)
}.

Definition no_faults : IOFaults :=
  {| open_fault := None; stat_fault := None; readat_fault := None;
     sep_write_fault := None; line_write_fault := None |}.

(** [os.Stat(path)], down to the size of the file. *)
Definition Stat (fs : FS) (io : IOFaults) (path : string) : result nat :=
  match stat_fault io with
  | Some e => Err e
  | None =>
      match fs !! path with
      | Some content => Ok (String.length content)
      | None => Err ErrNotExist
      end
  end.

(** [os.OpenFile(filename, os.O_APPEND|os.O_RDWR|os.O_CREATE, 0o600)]: the
    file is created empty when it is absent. *)
Definition OpenFile_append (fs : FS) (io : IOFaults) (filename : string) : result FS :=
  match open_fault io with
  | Some e => Err e
  | None =>
      match fs !! filename with
      | Some _ => Ok fs
      | None => Ok (<[filename := EmptyString]> fs)
      end
  end.

(** [f.WriteString(data)] on a handle opened with O_APPEND: the data goes to
    the end of the file. *)
Definition WriteString (fs : FS) (fault : option (nat * error))
    (filename data : string) : FS * option error :=
  let old := default EmptyString (fs !! filename) in
  match fault with
  | None => (<[filename := old +:+ data]> fs, None)
  | Some (n, e) => (<[filename := old +:+ String.substring 0 n data]> fs, Some e)
  end.

(** [f.ReadAt(buf, off)] with a buffer of one byte. *)
Definition ReadAt1 (fs : FS) (io : IOFaults) (filename : string) (off : nat) : result ascii :=
  match readat_fault io with
  | Some e => Err e
  | None =>
      match String.get off (default EmptyString (fs !! filename)) with
      | Some b => Ok b
      | None => Err (ErrOther "EOF")
      end
  end.

(** ** Configuration *)

(** The fields of [UserConfig().OS] the facade reads. *)
Record OSConfig : Type := {
  CopyToClipboardCmd : string;
  ReadFromClipboardCmd : string;
  ShellFunctionsFile : string
}.

(** [s != ""]. *)
Definition is_set (s : string) : bool := nonempty s.

Section Facade.

(** Functions of the repository's [utils] package and of the command
    builder, which this file takes as given. *)
Variable ResolvePlaceholderString : string -> list (string * string) -> string.
Variable TruncateWithEllipsis : string -> nat -> string.
Variable Quote : string -> string.

(** The log message templates, [c.Tr.Log]. *)
Variable AppendingLineToFile_tmpl : string.
Variable CopyToClipboard_tmpl : string.

(** [utils.WrapError] on a non-nil error: the same error with a stack
    trace attached, non-nil again.  (On nil it returns nil; the code below
    calls it under [if err != nil] only.) *)
Definition WrapError (e : error) : error := Wrapped e.

(** *** FileExists *)

Definition FileExists (fs : FS) (io : IOFaults) (path : string) : bool * option error :=
  match Stat fs io path with
  | Err err =>
      if IsNotExist err then (false, None)
      else (false, Some err)
  | Ok _ => (true, None)
  end.

(** *** AppendLineToFile *)

(** The block under [if info.Size() > 0].  [Err] is the early return on a
    failed [ReadAt]; [Ok (fs', err)] carries the file system and the value
    of the variable [err] after the block. *)
Definition write_separator (fs : FS) (io : IOFaults) (filename : string) (size : nat)
    : result (FS * option error) :=
  if 0 <? size then
    match ReadAt1 fs io filename (size - 1) with
    | Err err => Err (WrapError err)
    | Ok b =>
        (* if the last byte of the file is not a newline, add it *)
        if negb (Ascii.eqb LF b)
        then Ok (WriteString fs (sep_write_fault io) filename newline)
        else Ok (fs, None)
    end
  else Ok (fs, None).

Definition AppendLineToFile (fs : FS) (io : IOFaults) (filename line : string)
    : FS * list event * option error :=
  let msg := ResolvePlaceholderString AppendingLineToFile_tmpl
               [("line", line); ("filename", filename)] in
  let log := LogCommand msg false in
  match OpenFile_append fs io filename with
  | Err err => (fs, log, Some (WrapError err))
  | Ok fs1 =>
      match Stat fs1 io filename with
      | Err err => (fs1, log, Some (WrapError err))
      | Ok size =>
          match write_separator fs1 io filename size with
          | Err wrapped => (fs1, log, Some wrapped)
          | Ok (fs2, err) =>
              let '(fs3, err) :=
                match err with
                | None => WriteString fs2 (line_write_fault io) filename (line +:+ newline)
                | Some _ => (fs2, err)
                end in
              (fs3, log, WrapError <$> err)
          end
      end
  end.

(** *** The clipboard *)

(** What the shell and the OS clipboard answer. *)
Variable RunWithOutput : string -> string -> result string.
Variable Run : string -> string -> option error.
Variable clipboard_ReadAll : result string.
Variable clipboard_WriteAll : string -> option error.

Definition CopyToClipboard (cfg : OSConfig) (str : string) : list event * option error :=
  let escaped := ReplaceAll str newline "\n" in
  let truncated := TruncateWithEllipsis escaped 40 in
  let msg := ResolvePlaceholderString CopyToClipboard_tmpl [("str", truncated)] in
  let log := LogCommand msg false in
  if is_set (CopyToClipboardCmd cfg) then
    let cmdStr := ResolvePlaceholderString (CopyToClipboardCmd cfg) [("text", Quote str)] in
    (log ++ [EvShell cmdStr (ShellFunctionsFile cfg)], Run cmdStr (ShellFunctionsFile cfg))
  else
    (log ++ [EvClipboardWrite str], clipboard_WriteAll str).

(** The [if]/[else] of [PasteFromClipboard] that assigns [s, err]. *)
Definition read_clipboard (cfg : OSConfig) : list event * result string :=
  if is_set (CopyToClipboardCmd cfg) then
    let cmdStr := ReadFromClipboardCmd cfg in
    ([EvShell cmdStr (ShellFunctionsFile cfg)],
     RunWithOutput cmdStr (ShellFunctionsFile cfg))
  else
    ([EvClipboardRead], clipboard_ReadAll).

Definition PasteFromClipboard (cfg : OSConfig) : list event * (string * option error) :=
  let '(evs, r) := read_clipboard cfg in
  match r with
  | Err err => (evs, (EmptyString, Some err))
  | Ok s => (evs, (ReplaceAll s crlf newline, None))
  end.

End Facade.

(** ** exec.Cmd *)

(** An open stream: one the caller supplied, or an end of a pipe the
    operating system created ([os.Pipe] numbers them here). *)
Inductive handle : Type :=
  | Stream (name : string)
  | PipeR (k : nat)
  | PipeW (k : nat).

(** The fields of [exec.Cmd] the pipeline reads and writes; [None] is nil,
    the inherited default.  [Process] is true once [Start] has succeeded. *)
Record Cmd : Type := {
  Stdin : option handle;
  Stdout : option handle;
  Stderr : option handle;
  Process : bool
}.

Definition set_Stdin (h : handle) (c : Cmd) : Cmd :=
  {| Stdin := Some h; Stdout := Stdout c; Stderr := Stderr c; Process := Process c |}.
Definition set_Stdout (h : handle) (c : Cmd) : Cmd :=
  {| Stdin := Stdin c; Stdout := Some h; Stderr := Stderr c; Process := Process c |}.
Definition set_Stderr (h : handle) (c : Cmd) : Cmd :=
  {| Stdin := Stdin c; Stdout := Stdout c; Stderr := Some h; Process := Process c |}.
Definition set_Process (c : Cmd) : Cmd :=
  {| Stdin := Stdin c; Stdout := Stdout c; Stderr := Stderr c; Process := true |}.

(** What the operating system does with one stage of a pipeline: whether
    its pipes can be created, whether the process starts, what
    [io.ReadAll] delivers from its standard error, and how it exits. *)
Record Proc : Type := {
  stdout_pipe_fault : option error;
  stderr_pipe_fault : option error;
  start_err : option error;
  stderr_out : result string;
  wait_err : option error
}.

(** [cmd.StdoutPipe()]; [k] is the number of the pipe [os.Pipe] would give. *)
Definition StdoutPipe (c : Cmd) (fault : option error) (k : nat) : result (Cmd * handle) :=
  match Stdout c with
  | Some _ => Err (ErrOther "exec: Stdout already set")
  | None =>
      if Process c then Err (ErrOther "exec: StdoutPipe after process started")
      else match fault with
           | Some e => Err e
           | None => Ok (set_Stdout (PipeW k) c, PipeR k)
           end
  end.

(** [cmd.StderrPipe()]. *)
Definition StderrPipe (c : Cmd) (fault : option error) (k : nat) : result (Cmd * handle) :=
  match Stderr c with
  | Some _ => Err (ErrOther "exec: Stderr already set")
  | None =>
      if Process c then Err (ErrOther "exec: StderrPipe after process started")
      else match fault with
           | Some e => Err e
           | None => Ok (set_Stderr (PipeW k) c, PipeR k)
           end
  end.

(** [cmd.Start()]. *)
Definition Start (c : Cmd) (fault : option error) : Cmd * option error :=
  if Process c then (c, Some (ErrOther "exec: already started"))
  else match fault with
       | Some e => (c, Some e)
       | None => (set_Process c, None)
       end.

(** [cmd.Wait()]. *)
Definition Wait (c : Cmd) (exit : option error) : option error :=
  if Process c then exit else Some (ErrOther "exec: not started").

(** ** PipeCommands *)

(** A command object with [GetCmd()] and [ToString()], and the behaviour
    of its process.  The stages of a pipeline are distinct command objects:
    the builder makes a new one for every command, and each is run at most
    once, so that every stage has an [exec.Cmd] of its own. *)
Record CmdObj : Type := {
  GetCmd : Cmd;
  ToString : string;
  proc : Proc
}.

(** [errors.New]. *)
Definition errors_New (msg : string) : error := ErrOther msg.

(** The loop [for i := range len(cmds) - 1]: [iters] iterations are left,
    the next one at index [i].  It returns the commands as the loop left
    them, the number of the next pipe, and the error of the early return.
    The loop keeps [i + 1] below [len(cmds)], so that the last case, an
    index out of range, is never taken. *)
Fixpoint wire_loop (procs : list Proc) (iters i : nat) (cmds : list Cmd) (next : nat)
    : list Cmd * nat * option error :=
  match iters with
  | O => (cmds, next, None)
  | S iters' =>
      match cmds !! i, procs !! i with
      | Some c, Some p =>
          match StdoutPipe c (stdout_pipe_fault p) next with
          | Err err => (cmds, next, Some err)
          | Ok (c', stdout) =>
              let cmds1 := <[i := c']> cmds in
              let cmds2 := alter (set_Stdin stdout) (i + 1) cmds1 in
              wire_loop procs iters' (i + 1) cmds2 (next + 1)
          end
      | _, _ => (cmds, next, Some (ErrOther "index out of range"))
      end
  end.

(** Where one stage's goroutine stands in its body.  The statement
    [finalErrors = append(finalErrors, string(b))] is not atomic and
    nothing guards it: the goroutine reads the shared slice ([GLoad]) and
    later assigns the extended slice ([GStore]); other goroutines may move
    in between. *)
Inductive gstate : Type :=
  | GUnspawned                                 (* its [go] statement has not run *)
  | GStderrPipe                                (* at [cmd.StderrPipe()] *)
  | GStart (stderr : option handle)            (* at [cmd.Start()] *)
  | GReadAll (stderr : option handle)          (* at [io.ReadAll(stderr)] *)
  | GLoad (b : string)                         (* at the read of [finalErrors] in the append *)
  | GStore (old : list string) (b : string)    (* at the assignment of [append(old, b)] *)
  | GWait                                      (* at [cmd.Wait()] *)
  | GDone                                      (* at [wg.Done()] *)
  | GExited
  | GPanicked.                                 (* [io.ReadAll] on a nil reader *)

(** Where the calling goroutine stands. *)
Inductive mstate : Type :=
  | MSpawn (k : nat)                           (* in [for _, cmd := range cmds], at stage [k] *)
  | MWaitAll                                   (* at [wg.Wait()] *)
  | MReturned (r : option error).

Record State : Type := {
  cmds : list Cmd;
  next_pipe : nat;
  gs : list gstate;
  finalErrors : list string;
  wg : nat;
  main : mstate;
  events : list event
}.

Definition with_g (i : nat) (g : gstate) (st : State) : State :=
  {| cmds := cmds st; next_pipe := next_pipe st; gs := <[i := g]> (gs st);
     finalErrors := finalErrors st; wg := wg st; main := main st;
     events := events st |}.
Definition with_cmd (i : nat) (c : Cmd) (st : State) : State :=
  {| cmds := <[i := c]> (cmds st); next_pipe := next_pipe st; gs := gs st;
     finalErrors := finalErrors st; wg := wg st; main := main st;
     events := events st |}.
Definition with_events (evs : list event) (st : State) : State :=
  {| cmds := cmds st; next_pipe := next_pipe st; gs := gs st;
     finalErrors := finalErrors st; wg := wg st; main := main st;
     events := events st ++ evs |}.
Definition with_main (m : mstate) (st : State) : State :=
  {| cmds := cmds st; next_pipe := next_pipe st; gs := gs st;
     finalErrors := finalErrors st; wg := wg st; main := m;
     events := events st |}.
Definition with_finalErrors (l : list string) (st : State) : State :=
  {| cmds := cmds st; next_pipe := next_pipe st; gs := gs st;
     finalErrors := l; wg := wg st; main := main st;
     events := events st |}.
Definition with_next_pipe (k : nat) (st : State) : State :=
  {| cmds := cmds st; next_pipe := k; gs := gs st;
     finalErrors := finalErrors st; wg := wg st; main := main st;
     events := events st |}.
Definition with_wg (k : nat) (st : State) : State :=
  {| cmds := cmds st; next_pipe := next_pipe st; gs := gs st;
     finalErrors := finalErrors st; wg := k; main := main st;
     events := events st |}.

(** [c.Log.Error(err)] under [if err != nil]. *)
Definition log_error (err : option error) : list event :=
  match err with
  | Some e => [EvLogError e]
  | None => []
  end.

(** A goroutine has panicked.  [utils.Safe] runs the body it is given; a
    panic in it is not turned into a normal return, so [wg.Done()] is not
    reached and the call never returns: no thread moves any more. *)
Definition is_panicked (g : gstate) : bool :=
  match g with
  | GPanicked => true
  | _ => false
  end.

Definition crashed (st : State) : bool := existsb is_panicked (gs st).

(** The threads of one call: the caller and one goroutine per stage. *)
Inductive tid : Type :=
  | Main
  | G (i : nat).

(** The value [PipeCommands] returns once [wg.Wait()] is over. *)
Definition final_result (finalErrors : list string) : option error :=
  if 0 <? length finalErrors
  then Some (errors_New (Join finalErrors newline))
  else None.

(** One step of the caller after the wiring: a [go] statement of the loop,
    the end of the loop, or [wg.Wait()], which blocks until the counter is
    zero. *)
Definition main_step (st : State) : option State :=
  match main st with
  | MSpawn k =>
      if k <? length (gs st)
      then Some (with_main (MSpawn (k + 1)) (with_g k GStderrPipe st))
      else Some (with_main MWaitAll st)
  | MWaitAll =>
      if wg st =? 0
      then Some (with_main (MReturned (final_result (finalErrors st))) st)
      else None
  | MReturned _ => None
  end.

(** One step of the goroutine of stage [i], the body handed to
    [utils.Safe]. *)
Definition g_step (procs : list Proc) (i : nat) (st : State) : option State :=
  match gs st !! i, cmds st !! i, procs !! i with
  | Some g, Some c, Some p =>
      match g with
      | GStderrPipe =>
          match StderrPipe c (stderr_pipe_fault p) (next_pipe st) with
          | Ok (c', stderr) =>
              Some (with_g i (GStart (Some stderr))
                      (with_next_pipe (next_pipe st + 1) (with_cmd i c' st)))
          | Err err =>
              Some (with_g i (GStart None) (with_events [EvLogError err] st))
          end
      | GStart stderr =>
          let '(c', err) := Start c (start_err p) in
          Some (with_g i (GReadAll stderr)
                  (with_events (EvStart i :: log_error err) (with_cmd i c' st)))
      | GReadAll None => Some (with_g i GPanicked st)
      | GReadAll (Some _) =>
          match stderr_out p with
          | Ok b =>
              if 0 <? String.length b
              then Some (with_g i (GLoad b) st)
              else Some (with_g i GWait st)
          | Err _ => Some (with_g i GWait st)
          end
      | GLoad b => Some (with_g i (GStore (finalErrors st) b) st)
      | GStore old b => Some (with_g i GWait (with_finalErrors (old ++ [b]) st))
      | GWait =>
          Some (with_g i GDone
                  (with_events (EvWait i :: log_error (Wait c (wait_err p))) st))
      | GDone => Some (with_g i GExited (with_wg (wg st - 1) st))
      | GUnspawned | GExited | GPanicked => None
      end
  | _, _, _ => None
  end.

(** A step of thread [t]; [None] when [t] cannot move. *)
Definition step (procs : list Proc) (t : tid) (st : State) : option State :=
  if crashed st then None
  else match t with
       | Main => main_step st
       | G i => g_step procs i st
       end.

(** The run under a schedule: the threads move in the order listed. *)
Fixpoint exec (procs : list Proc) (sched : list tid) (st : State) : option State :=
  match sched with
  | [] => Some st
  | t :: sched' =>
      match step procs t st with
      | Some st' => exec procs sched' st'
      | None => None
      end
  end.

(** The wiring of the stages: [cmds := lo.Map(cmdObjs, GetCmd)] and the
    loop over adjacent pairs.  [range len(cmds) - 1] runs [len(cmds) - 1]
    times, and not at all when that is zero or negative, as the truncated
    subtraction on [nat] has it. *)
Definition wire (cmdObjs : list CmdObj) : list Cmd * nat * option error :=
  let cmds0 := map GetCmd cmdObjs in
  wire_loop (map proc cmdObjs) (length cmds0 - 1) 0 cmds0 0.

Definition wiring_error (cmdObjs : list CmdObj) : option error := snd (wire cmdObjs).

(** The state in which the goroutines are launched: the command has been
    logged, the stages wired, [finalErrors] is empty and the wait group
    counts every stage; or, when a [StdoutPipe] failed, the state in which
    [PipeCommands] has returned that error. *)
Definition start_state (cmdObjs : list CmdObj) : State :=
  let logCmdStr := Join (map ToString cmdObjs) " | " in
  let log := LogCommand logCmdStr true in
  let '(cmds1, next, err) := wire cmdObjs in
  {| cmds := cmds1; next_pipe := next;
     gs := replicate (length cmdObjs) GUnspawned;
     finalErrors := [];
     wg := length cmdObjs;
     main := match err with
             | Some e => MReturned (Some e)
             | None => MSpawn 0
             end;
     events := log |}.

(** [PipeCommands(cmdObjs...)] under a schedule of its threads. *)
Definition PipeCommands (cmdObjs : list CmdObj) (sched : list tid) : option State :=
  exec (map proc cmdObjs) sched (start_state cmdObjs).

(** What the call returned, if it has. *)
Definition returned (st : State) : option (option error) :=
  match main st with
  | MReturned r => Some r
  | _ => None
  end.

(** ** The step relation

    The same steps as [step], one rule for each statement. *)
Inductive Step (procs : list Proc) : tid -> State -> State -> Prop :=
  | Step_go (st : State) (k : nat) :
      main st = MSpawn k -> k < length (gs st) ->
      Step procs Main st (with_main (MSpawn (k + 1)) (with_g k GStderrPipe st))
  | Step_loop_end (st : State) (k : nat) :
      main st = MSpawn k -> length (gs st) <= k ->
      Step procs Main st (with_main MWaitAll st)
  | Step_join (st : State) :
      main st = MWaitAll -> wg st = 0 ->
      Step procs Main st (with_main (MReturned (final_result (finalErrors st))) st)
  | Step_stderr_pipe (st : State) (i : nat) (c c' : Cmd) (p : Proc) (h : handle) :
      gs st !! i = Some GStderrPipe -> cmds st !! i = Some c -> procs !! i = Some p ->
      StderrPipe c (stderr_pipe_fault p) (next_pipe st) = Ok (c', h) ->
      Step procs (G i) st
        (with_g i (GStart (Some h)) (with_next_pipe (next_pipe st + 1) (with_cmd i c' st)))
  | Step_stderr_pipe_err (st : State) (i : nat) (c : Cmd) (p : Proc) (err : error) :
      gs st !! i = Some GStderrPipe -> cmds st !! i = Some c -> procs !! i = Some p ->
      StderrPipe c (stderr_pipe_fault p) (next_pipe st) = Err err ->
      Step procs (G i) st
        (with_g i (GStart None) (with_events [EvLogError err] st))
  | Step_start (st : State) (i : nat) (stderr : option handle) (c : Cmd) (p : Proc) :
      gs st !! i = Some (GStart stderr) -> cmds st !! i = Some c -> procs !! i = Some p ->
      Step procs (G i) st
        (with_g i (GReadAll stderr)
           (with_events (EvStart i :: log_error (snd (Start c (start_err p))))
              (with_cmd i (fst (Start c (start_err p))) st)))
  | Step_read_nil (st : State) (i : nat) :
      gs st !! i = Some (GReadAll None) -> i < length (cmds st) -> i < length procs ->
      Step procs (G i) st (with_g i GPanicked st)
  | Step_read_block (st : State) (i : nat) (h : handle) (p : Proc) (b : string) :
      gs st !! i = Some (GReadAll (Some h)) -> i < length (cmds st) ->
      procs !! i = Some p -> stderr_out p = Ok b -> 0 < String.length b ->
      Step procs (G i) st (with_g i (GLoad b) st)
  | Step_read_nothing (st : State) (i : nat) (h : handle) (p : Proc) :
      gs st !! i = Some (GReadAll (Some h)) -> i < length (cmds st) ->
      procs !! i = Some p ->
      (forall b, stderr_out p = Ok b -> String.length b = 0) ->
      Step procs (G i) st (with_g i GWait st)
  | Step_load (st : State) (i : nat) (b : string) :
      gs st !! i = Some (GLoad b) -> i < length (cmds st) -> i < length procs ->
      Step procs (G i) st (with_g i (GStore (finalErrors st) b) st)
  | Step_store (st : State) (i : nat) (old : list string) (b : string) :
      gs st !! i = Some (GStore old b) -> i < length (cmds st) -> i < length procs ->
      Step procs (G i) st (with_g i GWait (with_finalErrors (old ++ [b]) st))
  | Step_wait (st : State) (i : nat) (c : Cmd) (p : Proc) :
      gs st !! i = Some GWait -> cmds st !! i = Some c -> procs !! i = Some p ->
      Step procs (G i) st
        (with_g i GDone (with_events (EvWait i :: log_error (Wait c (wait_err p))) st))
  | Step_done (st : State) (i : nat) :
      gs st !! i = Some GDone -> i < length (cmds st) -> i < length procs ->
      Step procs (G i) st (with_g i GExited (with_wg (wg st - 1) st)).

(** ** What the stages wrote, and where the goroutines stand *)

(** The block a stage adds to [finalErrors]: its standard error when it
    was read without error and is not empty. *)
Definition proc_block (p : Proc) : option string :=
  match stderr_out p with
  | Ok b => if 0 <? String.length b then Some b else None
  | Err _ => None
  end.

(** The non-empty stderr blocks, in stage order. *)
Definition stderr_blocks (cmdObjs : list CmdObj) : list string :=
  omap proc_block (map proc cmdObjs).

(** The goroutine is past the append. *)
Definition past_store (g : gstate) : bool :=
  match g with
  | GWait | GDone | GExited => true
  | _ => false
  end.

Definition is_exited (g : gstate) : bool :=
  match g with
  | GExited => true
  | _ => false
  end.

(** The goroutines that have not called [wg.Done()] yet. *)
Fixpoint live (l : list gstate) : nat :=
  match l with
  | [] => 0
  | g :: l' => (if is_exited g then 0 else 1) + live l'
  end.

(** The blocks of the stages that are past the append, in stage order. *)
Fixpoint landed (l : list gstate) (procs : list Proc) : list string :=
  match l, procs with
  | g :: l', p :: procs' =>
      (if past_store g then option_list (proc_block p) else []) ++ landed l' procs'
  | _, _ => []
  end.

(** The goroutine is inside the append: it has read [finalErrors] and not
    yet assigned it. *)
Definition in_append (g : gstate) : bool :=
  match g with
  | GStore _ _ => true
  | _ => false
  end.

Fixpoint appending (l : list gstate) : nat :=
  match l with
  | [] => 0
  | g :: l' => (if in_append g then 1 else 0) + appending l'
  end.

(** At most one goroutine is inside the append. *)
Definition exclusive (st : State) : bool := appending (gs st) <=? 1.

(** The states a run goes through. *)
Fixpoint run_states (procs : list Proc) (sched : list tid) (st : State) : list State :=
  st :: match sched with
        | [] => []
        | t :: sched' =>
            match step procs t st with
            | Some st' => run_states procs sched' st'
            | None => []
            end
        end.

(** The appends of a run are serialized: no two of them overlap. *)
Definition appends_serialized (cmdObjs : list CmdObj) (sched : list tid) : bool :=
  forallb exclusive (run_states (map proc cmdObjs) sched (start_state cmdObjs)).

(** The stage whose goroutine makes the assignment of
    [finalErrors = append(finalErrors, string(b))] in the step thread [t]
    takes from [st], if that step is one. *)
Definition assigns (st : State) (t : tid) : list nat :=
  match t with
  | G i => match gs st !! i with
           | Some (GStore _ _) => [i]
           | _ => []
           end
  | Main => []
  end.

(** The stage whose [io.ReadAll(stderr)] returns in the step thread [t]
    takes from [st], if that step is one. *)
Definition drains (st : State) (t : tid) : list nat :=
  match t with
  | G i => match gs st !! i with
           | Some (GReadAll (Some _)) => [i]
           | _ => []
           end
  | Main => []
  end.

(** The stages picked by [pick] at the steps of a run, in the order of the
    steps. *)
Fixpoint stages_in_order (pick : State -> tid -> list nat) (procs : list Proc)
    (sched : list tid) (st : State) : list nat :=
  match sched with
  | [] => []
  | t :: sched' =>
      match step procs t st with
      | Some st' => pick st t ++ stages_in_order pick procs sched' st'
      | None => []
      end
  end.

(** The stages in the order in which their goroutines assigned
    [finalErrors] in a run of [PipeCommands], and in the order in which
    their reads of stderr returned. *)
Definition append_order (cmdObjs : list CmdObj) (sched : list tid) : list nat :=
  stages_in_order assigns (map proc cmdObjs) sched (start_state cmdObjs).

Definition drain_order (cmdObjs : list CmdObj) (sched : list tid) : list nat :=
  stages_in_order drains (map proc cmdObjs) sched (start_state cmdObjs).

(** The stderr blocks of the stages [order] lists. *)
Definition blocks_of (procs : list Proc) (order : list nat) : list string :=
  omap (fun i => procs !! i ≫= proc_block) order.

(** The stderr blocks in the order in which they were appended. *)
Definition appended_blocks (cmdObjs : list CmdObj) (sched : list tid) : list string :=
  blocks_of (map proc cmdObjs) (append_order cmdObjs sched).

(** How far a goroutine and the caller are. *)
Definition rank (g : gstate) : nat :=
  match g with
  | GUnspawned => 0
  | GStderrPipe => 1
  | GStart _ => 2
  | GReadAll _ => 3
  | GLoad _ => 4
  | GStore _ _ => 5
  | GWait => 6
  | GDone => 7
  | GExited => 8
  | GPanicked => 8
  end.





(** Stage [i]'s stdout feeds stage [i+1]'s stdin through one pipe. *)
Definition connected (cs : list Cmd) (i : nat) : Prop :=
  exists k a b, cs !! i = Some a /\ cs !! (i + 1) = Some b /\
    Stdout a = Some (PipeW k) /\ Stdin b = Some (PipeR k).

Definition is_observer (e : event) : bool :=
  match e with
  | EvObserver _ _ => true
  | _ => false
  end.

(** ** Invariants of a run *)

(** What holds in every state of a run whose wiring succeeded. *)
Record inv (procs : list Proc) (st : State) : Prop := {
  inv_gs : length (gs st) = length procs;
  inv_cmds : length (cmds st) = length procs;
  inv_wg : wg st = live (gs st);
  inv_spawn : forall k, main st = MSpawn k ->
    k <= length (gs st) /\
    (forall j g, k <= j -> gs st !! j = Some g -> g = GUnspawned) /\
    (forall j, j < k -> gs st !! j <> Some GUnspawned);
  inv_spawned : main st = MWaitAll ->
    forall j, gs st !! j <> Some GUnspawned;
  inv_fe : forall s, s ∈ finalErrors st -> s ∈ omap proc_block procs;
  inv_store : forall i old b, gs st !! i = Some (GStore old b) ->
    (forall s, s ∈ old -> s ∈ omap proc_block procs) /\
    procs !! i ≫= proc_block = Some b;
  inv_load : forall i b, gs st !! i = Some (GLoad b) ->
    procs !! i ≫= proc_block = Some b;
  inv_landed : landed (gs st) procs <> [] -> finalErrors st <> [];
  inv_ret : forall r, main st = MReturned r ->
    r = final_result (finalErrors st) /\ wg st = 0
}.

(** What holds besides while the appends do not overlap. *)
Record sinv (procs : list Proc) (st : State) : Prop := {
  sinv_fe : Permutation (finalErrors st) (landed (gs st) procs);
  sinv_fresh : forall i old b, gs st !! i = Some (GStore old b) ->
    old = finalErrors st
}.


(** The stages are wired: each stage's stdout feeds the next stage's
    stdin, and the first stdin and the last stdout are as the caller's
    command objects have them. *)
Definition first_stdin_kept (cmdObjs : list CmdObj) (cs : list Cmd) : Prop :=
  exists o c, cmdObjs !! 0 = Some o /\ cs !! 0 = Some c /\
    Stdin c = Stdin (GetCmd o).

Definition last_stdout_kept (cmdObjs : list CmdObj) (cs : list Cmd) : Prop :=
  exists o c, cmdObjs !! (length cmdObjs - 1) = Some o /\
    cs !! (length cmdObjs - 1) = Some c /\
    Stdout c = Stdout (GetCmd o).

Definition wired (cmdObjs : list CmdObj) (cs : list Cmd) : Prop :=
  (forall j, j + 1 < length cmdObjs -> connected cs j) /\
  first_stdin_kept cmdObjs cs /\ last_stdout_kept cmdObjs cs.

(** ** The claims of the specification, as it words them *)

(** Some stage wrote to its standard error. *)
Definition some_stderr (cmdObjs : list CmdObj) : Prop :=
  exists o b, o ∈ cmdObjs /\ stderr_out (proc o) = Ok b /\ b <> EmptyString.



(** When a stage wrote to stderr, the error is the stderr blocks joined by
    newlines in stage order. *)
Definition error_in_stage_order (cmdObjs : list CmdObj) (sched : list tid) : Prop :=
  forall st r, PipeCommands cmdObjs sched = Some st -> returned st = Some r ->
    some_stderr cmdObjs ->
    r = Some (errors_New (Join (stderr_blocks cmdObjs) newline)).

(** An empty sequence of commands is rejected. *)
Definition rejects_empty (sched : list tid) : Prop :=
  forall st r, PipeCommands [] sched = Some st -> returned st = Some r ->
    r <> None.

(** Every append to [finalErrors] is serialized. *)
Definition appends_always_serialized (cmdObjs : list CmdObj) : Prop :=
  forall sched, appends_serialized cmdObjs sched = true.

(** ** Sample pipelines *)

(** A command as the builder makes it: no stream set, not started. *)
Definition fresh_cmd : Cmd :=
  {| Stdin := None; Stdout := None; Stderr := None; Process := false |}.

(** A process that starts, writes [stderr] to its standard error and
    exits as [exit] says. *)
Definition process (stderr : string) (exit : option error) : Proc :=
  {| stdout_pipe_fault := None; stderr_pipe_fault := None; start_err := None;
     stderr_out := Ok stderr; wait_err := exit |}.

Definition command (display stderr : string) (exit : option error) : CmdObj :=
  {| GetCmd := fresh_cmd; ToString := display; proc := process stderr exit |}.

Definition exit_status_1 : option error := Some (ErrOther "exit status 1").

Definition cmd_false : CmdObj := command "false" EmptyString exit_status_1.
Definition cmd_sort : CmdObj := command "sort" EmptyString None.
Definition cmd_head : CmdObj := command "head -n 2" EmptyString None.
Definition cmd_ls_missing : CmdObj :=
  command "ls /missing" "ls: /missing: No such file or directory" exit_status_1.
Definition cmd_cat_missing : CmdObj :=
  command "cat /absent" "cat: /absent: No such file or directory" exit_status_1.

(** The number of steps the goroutine of a stage takes when its
    [StderrPipe] succeeds. *)
Definition g_steps (o : CmdObj) : nat :=
  match stderr_out (proc o) with
  | Ok b => if 0 <? String.length b then 7 else 5
  | Err _ => 5
  end.

(** The schedule that launches every goroutine, then runs them to their
    end one after the other in stage order, then lets the caller return. *)
Definition run_stages_from (i : nat) (cmdObjs : list CmdObj) : list tid :=
  concat (imap (fun j o => replicate (g_steps o) (G (i + j))) cmdObjs).

Definition seq_sched (cmdObjs : list CmdObj) : list tid :=
  replicate (length cmdObjs + 1) Main ++ run_stages_from 0 cmdObjs ++ [Main].


(** Two stages that both write to stderr, under three schedules: the
    second stage drains first; and both read [finalErrors] before either
    assigns it. *)
Definition two_failing : list CmdObj := [cmd_ls_missing; cmd_cat_missing].

Definition sched_second_first : list tid :=
  [Main; Main; Main] ++ replicate 7 (G 1) ++ replicate 7 (G 0) ++ [Main].

(** The read of the first stage returns first, and the second stage
    appends first. *)
Definition sched_drained_first : list tid :=
  [Main; Main; Main] ++ replicate 3 (G 0) ++ replicate 7 (G 1)
  ++ replicate 4 (G 0) ++ [Main].

Definition sched_overlap : list tid :=
  [Main; Main; Main] ++ replicate 4 (G 0) ++ replicate 4 (G 1)
  ++ [G 0; G 1] ++ replicate 2 (G 0) ++ replicate 2 (G 1) ++ [Main].

(** A stage whose [Stdout] the caller has set already. *)
Definition cmd_with_stdout : CmdObj :=
  {| GetCmd := {| Stdin := None; Stdout := Some (Stream "out.txt");
                  Stderr := None; Process := false |};
     ToString := "git log"; proc := process EmptyString None |}.

(** The state a run ends in. *)
Definition final_state (cmdObjs : list CmdObj) (sched : list tid) : State :=
  default (start_state cmdObjs) (PipeCommands cmdObjs sched).

(** ** Sample files and configurations *)

Definition sample_fs : FS :=
  {[ "/repo/.gitignore" := "node_modules"; "/repo/exclude" := String "*" (String "." (String "o" newline)) ]}.

Definition stat_denied : IOFaults :=
  {| open_fault := None; stat_fault := Some ErrPermission; readat_fault := None;
     sep_write_fault := None; line_write_fault := None |}.

(** A stand-in for [utils.ResolvePlaceholderString] in the samples. *)
Definition sample_resolve (tmpl : string) (args : list (string * string)) : string := tmpl.

Definition cfg_read_only : OSConfig :=
  {| CopyToClipboardCmd := EmptyString; ReadFromClipboardCmd := "pbpaste";
     ShellFunctionsFile := EmptyString |}.
Definition cfg_copy_only : OSConfig :=
  {| CopyToClipboardCmd := "pbcopy"; ReadFromClipboardCmd := EmptyString;
     ShellFunctionsFile := EmptyString |}.

(** What a clipboard holding [a CR LF b] answers. *)
Definition a_crlf_b : string := String "a" (String CR (String LF "b")).
Definition a_lf_b : string := String "a" (String LF "b").
Definition sample_shell (cmdStr file : string) : result string := Ok a_crlf_b.
Definition broken_shell (cmdStr file : string) : result string :=
  Err (ErrOther "exit status 127").

(** ** More about a run: starts and waits *)

Definition is_start (i : nat) (e : event) : bool :=
  match e with
  | EvStart j => j =? i
  | _ => false
  end.

Definition is_wait (i : nat) (e : event) : bool :=
  match e with
  | EvWait j => j =? i
  | _ => false
  end.

(** How often an event of a kind is in a trace. *)
Definition count_ev (f : event -> bool) (evs : list event) : nat :=
  length (List.filter f evs).

(** The goroutine has called [cmd.Start()], resp. [cmd.Wait()]. *)
Definition started_g (g : gstate) : bool :=
  match g with
  | GUnspawned | GStderrPipe | GStart _ => false
  | _ => true
  end.

Definition waited_g (g : gstate) : bool :=
  match g with
  | GDone | GExited => true
  | _ => false
  end.

(** Where the goroutine of stage [i] stands; a stage the pipeline does not
    have is never launched. *)
Definition g_of (st : State) (i : nat) : gstate :=
  default GUnspawned (gs st !! i).

(** Every [Wait] of a stage in the trace comes after a [Start] of it. *)
Definition start_before_wait (evs : list event) : Prop :=
  forall k i, evs !! k = Some (EvWait i) ->
    exists k', k' < k /\ evs !! k' = Some (EvStart i).

(** The trace and the goroutines agree. *)
Record einv (st : State) : Prop := {
  einv_starts : forall i,
    count_ev (is_start i) (events st) = if started_g (g_of st i) then 1 else 0;
  einv_waits : forall i,
    count_ev (is_wait i) (events st) = if waited_g (g_of st i) then 1 else 0;
  einv_order : start_before_wait (events st)
}.

(** A goroutine whose [StderrPipe] failed, or will fail because the caller
    set [Stderr], on its way to the panic. *)
Definition doomed (c : option Cmd) (g : gstate) : Prop :=
  match g with
  | GUnspawned | GStderrPipe => exists c', c = Some c' /\ is_Some (Stderr c')
  | GStart None | GReadAll None | GPanicked => True
  | _ => False
  end.

(** The error [cmd.StdoutPipe()] gives on a stage, if any; it does not
    depend on the number of the pipe. *)
Definition stdout_error (c : Cmd) (p : Proc) : option error :=
  match StdoutPipe c (stdout_pipe_fault p) 0 with
  | Err e => Some e
  | Ok _ => None
  end.

(** A stage whose [Stderr] the caller has set already, and a run of it up
    to the panic. *)
Definition cmd_with_stderr : CmdObj :=
  {| GetCmd := {| Stdin := None; Stdout := None;
                  Stderr := Some (Stream "err.txt"); Process := false |};
     ToString := "git status"; proc := process EmptyString None |}.

Definition sched_panic : list tid := [Main; Main; G 0; G 0; G 0].

(** What [AppendLineToFile] writes before the line: a newline when the
    file has a last byte and that byte is not a newline, nothing
    otherwise. *)
Definition separator_for (original : string) : string :=
  match last_byte original with
  | Some b => if Ascii.eqb LF b then EmptyString else newline
  | None => EmptyString
  end.

(** How often a byte is in a string. *)
Fixpoint count_byte (b : ascii) (s : string) : nat :=
  match s with
  | EmptyString => 0
  | String c s' => (if Ascii.eqb b c then 1 else 0) + count_byte b s'
  end.

(** The sum of [f] over the pieces of a text. *)
Definition sum_over (f : string -> nat) (parts : list string) : nat :=
  foldr (fun p acc => f p + acc) 0 parts.

(** ** CreateFileWithContent *)

(** What the operating system answers to [os.MkdirAll] and to
    [os.WriteFile]: [None] is no failure.  A failed [WriteFile] either
    could not open the file, which is then as it was, or has created or
    truncated it and written the first bytes of the content. *)
Record CreateFaults : Type := {
  mkdirall_fault : option error;
  writefile_fault : option (option nat * error)
}.

Definition no_create_faults : CreateFaults :=
  {| mkdirall_fault := None; writefile_fault := None |}.

(** [os.WriteFile(path, []byte(content), 0o644)] on the regular files;
    the file is created or truncated. *)
Definition WriteFile (fs : FS) (cf : CreateFaults) (path content : string)
    : FS * option error :=
  match writefile_fault cf with
  | None => (<[path := content]> fs, None)
  | Some (None, e) => (fs, Some e)
  | Some (Some n, e) => (<[path := String.substring 0 n content]> fs, Some e)
  end.

Section CreateFile.

Variable ResolvePlaceholderString : string -> list (string * string) -> string.
Variable CreateFileWithContent_tmpl : string.

(** [OSCommand.CreateFileWithContent].  The directories made by
    [os.MkdirAll(filepath.Dir(path), os.ModePerm)] are not files and leave
    the map of regular files as it is. *)
Definition CreateFileWithContent (fs : FS) (cf : CreateFaults) (path content : string)
    : FS * list event * option error :=
  let msg := ResolvePlaceholderString CreateFileWithContent_tmpl [("path", path)] in
  let log := LogCommand msg false in
  match mkdirall_fault cf with
  | Some err => (fs, log ++ [EvLogError err], Some err)
  | None =>
      match WriteFile fs cf path content with
      | (fs', Some err) => (fs', log ++ [EvLogError err], Some (WrapError err))
      | (fs', None) => (fs', log, None)
      end
  end.

End CreateFile.

(** ** pkg/gui/editors.go *)

(** What an editor does to the view: the calls on [*gocui.View]. *)
Inductive edit : Type :=
  | EditDelete (back : bool)
  | MoveCursor (dx dy : Z) (writeMode : bool)
  | EditNewLine
  | EditWrite (ch : Z)
  | ToggleOverwrite                     (* v.Overwrite = !v.Overwrite *)
  | EditDeleteToStartOfLine
  | EditGotoToStartOfLine
  | EditGotoToEndOfLine.

(** What an editor does after the [switch]. *)
Inductive after_edit : Type :=
  | RenderCommitLength                  (* gui.RenderCommitLength() *)
  | RefreshSuggestions                  (* gui.setSuggestions(gui.findSuggestions(v.Buffer())) *)
  | Nothing.

Section Editors.

(** [gocui.Key] and the keys the editors name; [unicode.IsPrint] on a
    rune. *)
Variable Key : Type.
Context `{EqDecision Key}.
Variables KeyBackspace KeyBackspace2 KeyCtrlD KeyDelete : Key.
Variables KeyArrowDown KeyArrowUp KeyArrowLeft KeyArrowRight : Key.
Variables KeyTab KeySpace KeyInsert KeyCtrlU KeyCtrlA KeyCtrlE : Key.
Variable IsPrint : Z -> bool.

(** [newlineKey]: the key the user bound to [AppendNewline], or [KeyTab]
    when that binding is not a [gocui.Key] (the type assertion fails). *)
Definition newline_key (configured : option Key) : Key :=
  match configured with
  | Some key => key
  | None => KeyTab
  end.

(** The [switch] of [commitMessageEditor]: the first case that holds. *)
Definition commit_switch (newlineKey key : Key) (ch : Z) : option edit :=
  if bool_decide (key = KeyBackspace) || bool_decide (key = KeyBackspace2)
  then Some (EditDelete true)
  else if bool_decide (key = KeyCtrlD) || bool_decide (key = KeyDelete)
  then Some (EditDelete false)
  else if bool_decide (key = KeyArrowDown) then Some (MoveCursor 0 1 false)
  else if bool_decide (key = KeyArrowUp) then Some (MoveCursor 0 (-1) false)
  else if bool_decide (key = KeyArrowLeft) then Some (MoveCursor (-1) 0 false)
  else if bool_decide (key = KeyArrowRight) then Some (MoveCursor 1 0 false)
  else if bool_decide (key = newlineKey) then Some EditNewLine
  else if bool_decide (key = KeySpace) then Some (EditWrite 32)
  else if bool_decide (key = KeyInsert) then Some ToggleOverwrite
  else if bool_decide (key = KeyCtrlU) then Some EditDeleteToStartOfLine
  else if bool_decide (key = KeyCtrlA) then Some EditGotoToStartOfLine
  else if bool_decide (key = KeyCtrlE) then Some EditGotoToEndOfLine
  else if IsPrint ch then Some (EditWrite ch)
  else None.

(** [Gui.commitMessageEditor]: the edit, what follows it, and [matched]. *)
Definition commitMessageEditor (configured : option Key) (key : Key) (ch : Z)
    : option edit * after_edit * bool :=
  let newlineKey := newline_key configured in
  let matched := true in
  (commit_switch newlineKey key ch, RenderCommitLength, matched).

(** The [switch] of [defaultEditor]. *)
Definition default_switch (key : Key) (ch : Z) : option edit :=
  if bool_decide (key = KeyBackspace) || bool_decide (key = KeyBackspace2)
  then Some (EditDelete true)
  else if bool_decide (key = KeyCtrlD) || bool_decide (key = KeyDelete)
  then Some (EditDelete false)
  else if bool_decide (key = KeyArrowDown) then Some (MoveCursor 0 1 false)
  else if bool_decide (key = KeyArrowUp) then Some (MoveCursor 0 (-1) false)
  else if bool_decide (key = KeyArrowLeft) then Some (MoveCursor (-1) 0 false)
  else if bool_decide (key = KeyArrowRight) then Some (MoveCursor 1 0 false)
  else if bool_decide (key = KeySpace) then Some (EditWrite 32)
  else if bool_decide (key = KeyInsert) then Some ToggleOverwrite
  else if bool_decide (key = KeyCtrlU) then Some EditDeleteToStartOfLine
  else if bool_decide (key = KeyCtrlA) then Some EditGotoToStartOfLine
  else if bool_decide (key = KeyCtrlE) then Some EditGotoToEndOfLine
  else if IsPrint ch then Some (EditWrite ch)
  else None.

(** [Gui.defaultEditor]; [findSuggestions] says whether
    [gui.findSuggestions] is not nil. *)
Definition defaultEditor (findSuggestions : bool) (key : Key) (ch : Z)
    : option edit * after_edit * bool :=
  let matched := true in
  (default_switch key ch,
   if findSuggestions then RefreshSuggestions else Nothing,
   matched).

(** The keys whose cases come before the newline case. *)
Definition keys_before_newline : list Key :=
  [KeyBackspace; KeyBackspace2; KeyCtrlD; KeyDelete;
   KeyArrowDown; KeyArrowUp; KeyArrowLeft; KeyArrowRight].

End Editors.

(** The editors over keys that are numbers, every rune printable. *)
Definition sample_commit_editor : option nat -> nat -> Z -> option edit * after_edit * bool :=
  commitMessageEditor nat 1 2 3 4 5 6 7 8 9 10 11 12 13 14 (fun _ => true).
Definition sample_default_editor : bool -> nat -> Z -> option edit * after_edit * bool :=
  defaultEditor nat 1 2 3 4 5 6 7 8 10 11 12 13 14 (fun _ => true).

(** What [cmd.Wait()] gives on a stage whose command was not started
    before the call: the exit of the process when it could be started, and
    the complaint of [Wait] when it could not. *)
Definition wait_outcome (p : Proc) : option error :=
  match start_err p with
  | Some _ => Some (ErrOther "exec: not started")
  | None => wait_err p
  end.

(** The failures of [Start] and [Wait] are in the log. *)
Record linv (procs : list Proc) (st : State) : Prop := {
  linv_fresh : forall i g c,
    gs st !! i = Some g -> started_g g = false -> cmds st !! i = Some c ->
    Process c = false;
  linv_process : forall i g c p,
    gs st !! i = Some g -> started_g g = true ->
    cmds st !! i = Some c -> procs !! i = Some p ->
    Process c = match start_err p with Some _ => false | None => true end;
  linv_start : forall i g p e,
    gs st !! i = Some g -> started_g g = true -> procs !! i = Some p ->
    start_err p = Some e -> EvLogError e ∈ events st;
  linv_wait : forall i g p e,
    gs st !! i = Some g -> waited_g g = true -> procs !! i = Some p ->
    wait_outcome p = Some e -> EvLogError e ∈ events st
}.

(** A stage whose executable cannot be started. *)
Definition cmd_unstartable : CmdObj :=
  {| GetCmd := fresh_cmd; ToString := "nosuch";
     proc := {| stdout_pipe_fault := None; stderr_pipe_fault := None;
                start_err := Some (ErrOther "fork/exec /bin/nosuch: no such file or directory");
                stderr_out := Err (ErrOther "read |0: file already closed");
                wait_err := None |} |}.

(** * Properties *)

(** ** Strings *)

Lemma append_cons (c : ascii) (a b : string) :
  String c a +:+ b = String c (a +:+ b).
Proof. reflexivity. Qed.

Lemma append_empty_r (s : string) : s +:+ EmptyString = s.
Proof.
  induction s as [|c s IH]; [reflexivity |].
  rewrite append_cons, IH. reflexivity.
Qed.

Lemma append_assoc (a b c : string) : (a +:+ b) +:+ c = a +:+ (b +:+ c).
Proof.
  induction a as [|x a IH]; [reflexivity |].
  rewrite !append_cons, IH. reflexivity.
Qed.

Lemma split_crlf_eq (c d : ascii) (s : string) :
  split_crlf (String c (String d s)) =
  if Ascii.eqb c CR && Ascii.eqb d LF
  then EmptyString :: split_crlf s
  else push_byte c (split_crlf (String d s)).
Proof. reflexivity. Qed.

Lemma split_crlf_single (c : ascii) :
  split_crlf (String c EmptyString) = [String c EmptyString].
Proof. reflexivity. Qed.

Lemma replace_from_0 (old new : string) (c : ascii) (s : string) :
  replace_from old new 0 (String c s) =
  if String.prefix old (String c s)
  then new +:+ replace_from old new (String.length old - 1) s
  else String c (replace_from old new 0 s).
Proof. reflexivity. Qed.

Lemma replace_from_S (old new : string) (k : nat) (c : ascii) (s : string) :
  replace_from old new (S k) (String c s) = replace_from old new k s.
Proof. reflexivity. Qed.

Lemma push_byte_cons (c : ascii) (parts : list string) :
  exists p rest, push_byte c parts = p :: rest.
Proof. destruct parts; cbn [push_byte]; eauto. Qed.

Lemma split_crlf_cons (s : string) : exists p rest, split_crlf s = p :: rest.
Proof.
  destruct s as [|c [|d s'']]; [cbn; eauto | cbn; eauto |].
  rewrite split_crlf_eq.
  destruct (Ascii.eqb c CR && Ascii.eqb d LF); [eauto | apply push_byte_cons].
Qed.

Lemma Join_cons_cons (e p : string) (rest : list string) (sep : string) :
  Join (e :: p :: rest) sep = e +:+ sep +:+ Join (p :: rest) sep.
Proof. reflexivity. Qed.

Lemma Join_push_byte (c : ascii) (parts : list string) (sep : string) :
  parts <> [] -> Join (push_byte c parts) sep = String c (Join parts sep).
Proof.
  destruct parts as [|p [|q rest]]; intros Hne; [congruence | reflexivity | reflexivity].
Qed.

Lemma prefix_crlf_cons (c d : ascii) (s : string) :
  String.prefix crlf (String c (String d s)) = Ascii.eqb c CR && Ascii.eqb d LF.
Proof.
  unfold crlf, newline. cbn [String.prefix].
  destruct (ascii_dec CR c) as [<-|Hc].
  - rewrite Ascii.eqb_refl. cbn [andb].
    destruct (ascii_dec LF d) as [<-|Hd].
    + rewrite Ascii.eqb_refl. destruct s; reflexivity.
    + symmetry. apply Ascii.eqb_neq. congruence.
  - symmetry. apply andb_false_iff. left. apply Ascii.eqb_neq. congruence.
Qed.

Lemma prefix_crlf_single (c : ascii) :
  String.prefix crlf (String c EmptyString) = false.
Proof.
  unfold crlf, newline. cbn [String.prefix]. destruct (ascii_dec CR c); reflexivity.
Qed.

(** The scan of [ReplaceAll] and the split at CR LF agree, two bytes at a
    time. *)
Lemma replace_crlf_split_aux (s : string) :
  ReplaceAll s crlf newline = Join (split_crlf s) newline /\
  forall c, ReplaceAll (String c s) crlf newline
            = Join (split_crlf (String c s)) newline.
Proof.
  unfold ReplaceAll.
  induction s as [|d s'' [IH1 IH2]].
  - split; [reflexivity |].
    intros c. rewrite replace_from_0, prefix_crlf_single. reflexivity.
  - split; [apply IH2 |].
    intros c. rewrite replace_from_0, split_crlf_eq, prefix_crlf_cons.
    destruct (Ascii.eqb c CR && Ascii.eqb d LF) eqn:E.
    + change (String.length crlf - 1) with 1.
      rewrite replace_from_S, IH1.
      destruct (split_crlf_cons s'') as (p & rest & ->).
      rewrite Join_cons_cons. reflexivity.
    + rewrite (IH2 d).
      destruct (split_crlf_cons (String d s'')) as (p & rest & Hs).
      rewrite Join_push_byte by (rewrite Hs; discriminate).
      reflexivity.
Qed.

Lemma join_split_crlf_aux (s : string) :
  Join (split_crlf s) crlf = s /\
  forall c, Join (split_crlf (String c s)) crlf = String c s.
Proof.
  induction s as [|d s'' [IH1 IH2]].
  - split; [reflexivity | intros c; reflexivity].
  - split; [apply IH2 |].
    intros c. rewrite split_crlf_eq.
    destruct (Ascii.eqb c CR && Ascii.eqb d LF) eqn:E.
    + apply andb_true_iff in E as [Ec Ed].
      apply Ascii.eqb_eq in Ec, Ed. subst c d.
      destruct (split_crlf_cons s'') as (p & rest & Hs).
      rewrite Hs, Join_cons_cons, <- Hs, IH1. reflexivity.
    + destruct (split_crlf_cons (String d s'')) as (p & rest & Hs).
      rewrite Join_push_byte by (rewrite Hs; discriminate).
      rewrite (IH2 d). reflexivity.
Qed.

Lemma has_crlf_cons (c : ascii) (p : string) :
  has_crlf (String c p) = String.prefix crlf (String c p) || has_crlf p.
Proof. reflexivity. Qed.

(** Putting a byte in front of a piece makes no CR LF unless the byte is
    CR and the piece starts with LF. *)
Lemma has_crlf_push (c : ascii) (parts : list string) (s : string) :
  parts <> [] ->
  Join parts crlf = s ->
  String.prefix crlf (String c s) = false ->
  Forall (fun p => has_crlf p = false) parts ->
  Forall (fun p => has_crlf p = false) (push_byte c parts).
Proof.
  intros Hne HJ Hpre Hall.
  destruct parts as [|p rest]; [congruence |].
  cbn [push_byte]. inversion Hall as [|? ? Hp Hrest]; subst.
  constructor; [|assumption].
  rewrite has_crlf_cons, Hp, orb_false_r.
  destruct p as [|d p'].
  - apply prefix_crlf_single.
  - destruct rest as [|q rest'].
    + exact Hpre.
    + rewrite Join_cons_cons, append_cons, prefix_crlf_cons in Hpre.
      rewrite prefix_crlf_cons. exact Hpre.
Qed.

Lemma split_crlf_pieces_aux (s : string) :
  Forall (fun p => has_crlf p = false) (split_crlf s) /\
  forall c, Forall (fun p => has_crlf p = false) (split_crlf (String c s)).
Proof.
  induction s as [|d s'' [IH1 IH2]].
  - split; [repeat constructor |].
    intros c. rewrite split_crlf_single. constructor; [|constructor].
    rewrite has_crlf_cons, prefix_crlf_single. reflexivity.
  - split; [apply IH2 |].
    intros c. rewrite split_crlf_eq.
    destruct (Ascii.eqb c CR && Ascii.eqb d LF) eqn:E.
    + constructor; [reflexivity | apply IH1].
    + destruct (split_crlf_cons (String d s'')) as (p & rest & Hs).
      apply (has_crlf_push c _ (String d s'')).
      * rewrite Hs. discriminate.
      * apply join_split_crlf_aux.
      * rewrite prefix_crlf_cons. exact E.
      * apply IH2.
Qed.

(** ** The OS facade *)

Lemma lookup_WriteString (fs : FS) (filename data : string) :
  fst (WriteString fs None filename data) !! filename
  = Some (default EmptyString (fs !! filename) +:+ data).
Proof. cbn. apply lookup_insert_eq. Qed.

Lemma lookup_WriteString_ne (fs : FS) fault (filename data other : string) :
  other <> filename ->
  fst (WriteString fs fault filename data) !! other = fs !! other.
Proof.
  intros Hne. unfold WriteString. destruct fault as [[n e]|]; cbn;
    apply lookup_insert_ne; congruence.
Qed.

Lemma WriteString_ok (fs fs' : FS) fault (filename data : string) :
  WriteString fs fault filename data = (fs', None) ->
  fault = None /\ fs' = fst (WriteString fs None filename data).
Proof.
  unfold WriteString. destruct fault as [[n e]|]; intros H; inversion H; auto.
Qed.

Lemma string_length_0 (s : string) : String.length s = 0 -> s = EmptyString.
Proof. destruct s; [reflexivity | discriminate]. Qed.

Section FacadeProperties.

Variable ResolvePlaceholderString : string -> list (string * string) -> string.
Variable AppendingLineToFile_tmpl : string.
Variable RunWithOutput : string -> string -> result string.
Variable clipboard_ReadAll : result string.

(** C9. [FileExists] answers (false, nil) when the stat fails with a
    does-not-exist error, (false, err) with the stat's own non-nil error on
    any other stat failure, and (true, nil) when the stat succeeds. *)
Theorem FileExists_stat_cases (fs : FS) (io : IOFaults) (path : string) :
  (forall err, Stat fs io path = Err err -> IsNotExist err = true ->
     FileExists fs io path = (false, None)) /\
  (forall err, Stat fs io path = Err err -> IsNotExist err = false ->
     FileExists fs io path = (false, Some err)) /\
  (forall size, Stat fs io path = Ok size ->
     FileExists fs io path = (true, None)).
Proof.
  unfold FileExists. repeat split.
  - intros err -> ->. reflexivity.
  - intros err -> ->. reflexivity.
  - intros size ->. reflexivity.
Qed.

(** C4. After a successful [AppendLineToFile] the file holds: the line
    and a newline if it was empty or absent; the original contents, a
    newline, the line and a newline if its last byte was not a newline; the
    original contents, the line and a newline if it ended in a newline.
    No other file changes. *)
Theorem AppendLineToFile_contents (fs fs' : FS) (io : IOFaults)
    (filename line : string) (evs : list event) :
  AppendLineToFile ResolvePlaceholderString AppendingLineToFile_tmpl
    fs io filename line = (fs', evs, None) ->
  let original := default EmptyString (fs !! filename) in
  (original = EmptyString ->
     fs' !! filename = Some (line +:+ newline)) /\
  (original <> EmptyString -> last_byte original <> Some LF ->
     fs' !! filename = Some (original +:+ newline +:+ line +:+ newline)) /\
  (last_byte original = Some LF ->
     fs' !! filename = Some (original +:+ line +:+ newline)) /\
  (forall other, other <> filename -> fs' !! other = fs !! other).
Proof.
  intros H original.
  unfold AppendLineToFile, OpenFile_append in H.
  destruct (open_fault io); [discriminate |].
  destruct (fs !! filename) as [orig|] eqn:Hf.
  - (* the file exists *)
    unfold Stat in H. destruct (stat_fault io); [discriminate |].
    rewrite Hf in H. unfold write_separator, ReadAt1 in H.
    subst original. cbn [default from_option id].
    destruct (0 <? String.length orig) eqn:Hsz.
    + destruct (readat_fault io); [discriminate |].
      rewrite Hf in H. cbn [default from_option id] in H.
      destruct (String.get (String.length orig - 1) orig) as [b|] eqn:Hget;
        [|discriminate].
      destruct (Ascii.eqb LF b) eqn:Hb; cbn [negb] in H.
      * apply Ascii.eqb_eq in Hb. subst b.
        destruct (WriteString fs (line_write_fault io) filename (line +:+ newline))
          as [fs3 [e|]] eqn:Hw; [discriminate |].
        inversion H; subst fs3 evs. apply WriteString_ok in Hw as [_ ->].
        repeat split.
        -- intros ->. discriminate.
        -- unfold last_byte. intros _ Hl. congruence.
        -- intros _. rewrite lookup_WriteString, Hf. reflexivity.
        -- intros other Hne. apply lookup_WriteString_ne, Hne.
      * apply Ascii.eqb_neq in Hb.
        destruct (WriteString fs (sep_write_fault io) filename newline)
          as [fs2 [e|]] eqn:Hw1; [discriminate |].
        apply WriteString_ok in Hw1 as [_ ->].
        destruct (WriteString _ (line_write_fault io) filename (line +:+ newline))
          as [fs3 [e|]] eqn:Hw2; [discriminate |].
        inversion H; subst fs3 evs. apply WriteString_ok in Hw2 as [_ ->].
        repeat split.
        -- intros ->. discriminate.
        -- intros _ _. rewrite !lookup_WriteString, Hf. cbn [default from_option id].
           rewrite append_assoc. reflexivity.
        -- unfold last_byte. intros Hl. congruence.
        -- intros other Hne. rewrite !lookup_WriteString_ne by exact Hne.
           reflexivity.
    + apply Nat.ltb_ge in Hsz.
      assert (orig = EmptyString) as -> by (apply string_length_0; lia).
      destruct (WriteString fs (line_write_fault io) filename (line +:+ newline))
        as [fs3 [e|]] eqn:Hw; [discriminate |].
      inversion H; subst fs3 evs. apply WriteString_ok in Hw as [_ ->].
      repeat split.
      -- intros _. rewrite lookup_WriteString, Hf. reflexivity.
      -- congruence.
      -- discriminate.
      -- intros other Hne. apply lookup_WriteString_ne, Hne.
  - (* the file is created *)
    unfold Stat in H. destruct (stat_fault io); [discriminate |].
    rewrite lookup_insert_eq in H. unfold write_separator in H.
    cbn [String.length Nat.ltb Nat.leb] in H.
    subst original. cbn [default from_option id].
    destruct (WriteString _ (line_write_fault io) filename (line +:+ newline))
      as [fs3 [e|]] eqn:Hw; [discriminate |].
    inversion H; subst fs3 evs. apply WriteString_ok in Hw as [_ ->].
    repeat split.
    + intros _. rewrite lookup_WriteString, lookup_insert_eq. reflexivity.
    + congruence.
    + discriminate.
    + intros other Hne. rewrite lookup_WriteString_ne by exact Hne.
      apply lookup_insert_ne. congruence.
Qed.

(** C8. When the clipboard is read without error, [PasteFromClipboard]
    returns the raw text with every CR LF replaced by LF: the raw text is
    its pieces joined by CR LF, no piece holds a CR LF, and the result is
    the same pieces joined by LF; so [a CR LF b] gives [a LF b].  On a read
    error it returns the empty string and that error. *)
Theorem PasteFromClipboard_crlf_to_lf (cfg : OSConfig) :
  (forall evs raw,
     read_clipboard RunWithOutput clipboard_ReadAll cfg = (evs, Ok raw) ->
     snd (PasteFromClipboard RunWithOutput clipboard_ReadAll cfg)
       = (Join (split_crlf raw) newline, None) /\
     Join (split_crlf raw) crlf = raw /\
     Forall (fun piece => has_crlf piece = false) (split_crlf raw) /\
     (raw = a_crlf_b ->
      snd (PasteFromClipboard RunWithOutput clipboard_ReadAll cfg) = (a_lf_b, None))) /\
  (forall evs err,
     read_clipboard RunWithOutput clipboard_ReadAll cfg = (evs, Err err) ->
     snd (PasteFromClipboard RunWithOutput clipboard_ReadAll cfg)
       = (EmptyString, Some err)).
Proof.
  unfold PasteFromClipboard. split.
  - intros evs raw ->. cbn [snd].
    repeat split.
    + f_equal. apply replace_crlf_split_aux.
    + apply join_split_crlf_aux.
    + apply split_crlf_pieces_aux.
    + intros ->. reflexivity.
  - intros evs err ->. reflexivity.
Qed.

(** C10. [PasteFromClipboard] chooses its source by [CopyToClipboardCmd]:
    when that is empty it reads the OS clipboard, whatever
    [ReadFromClipboardCmd] holds; when it is not, it runs
    [ReadFromClipboardCmd] as a shell command, be it empty or not. *)
Theorem PasteFromClipboard_gated_by_copy_cmd (cfg : OSConfig) :
  (CopyToClipboardCmd cfg = EmptyString ->
     read_clipboard RunWithOutput clipboard_ReadAll cfg
       = ([EvClipboardRead], clipboard_ReadAll) /\
     fst (PasteFromClipboard RunWithOutput clipboard_ReadAll cfg)
       = [EvClipboardRead]) /\
  (CopyToClipboardCmd cfg <> EmptyString ->
     read_clipboard RunWithOutput clipboard_ReadAll cfg
       = ([EvShell (ReadFromClipboardCmd cfg) (ShellFunctionsFile cfg)],
          RunWithOutput (ReadFromClipboardCmd cfg) (ShellFunctionsFile cfg)) /\
     fst (PasteFromClipboard RunWithOutput clipboard_ReadAll cfg)
       = [EvShell (ReadFromClipboardCmd cfg) (ShellFunctionsFile cfg)]).
Proof.
  unfold PasteFromClipboard, read_clipboard, is_set.
  destruct (CopyToClipboardCmd cfg) as [|c rest]; cbn [nonempty]; split.
  - intros _. split; [reflexivity |]. destruct clipboard_ReadAll; reflexivity.
  - congruence.
  - discriminate.
  - intros _. split; [reflexivity |].
    destruct (RunWithOutput _ _); reflexivity.
Qed.

End FacadeProperties.

(** [FileExists] on the files themselves. *)
Lemma FileExists_on_files (fs : FS) (io : IOFaults) (path : string) :
  (stat_fault io = None -> fs !! path = None ->
     FileExists fs io path = (false, None)) /\
  (stat_fault io = None -> is_Some (fs !! path) ->
     FileExists fs io path = (true, None)) /\
  (stat_fault io = Some ErrPermission ->
     FileExists fs io path = (false, Some ErrPermission)).
Proof.
  unfold FileExists, Stat. repeat split.
  - intros -> ->. reflexivity.
  - intros -> [content ->]. reflexivity.
  - intros ->. reflexivity.
Qed.

(** [CopyToClipboard] chooses between the shell and the OS clipboard by
    the same configuration value as [PasteFromClipboard]. *)
Lemma CopyToClipboard_gated_by_copy_cmd
    (resolve : string -> list (string * string) -> string)
    (truncate : string -> nat -> string) (quote : string -> string)
    (tmpl : string) (run : string -> string -> option error)
    (writeAll : string -> option error) (cfg : OSConfig) (str : string) :
  (CopyToClipboardCmd cfg = EmptyString ->
     snd (CopyToClipboard resolve truncate quote tmpl run writeAll cfg str)
       = writeAll str) /\
  (CopyToClipboardCmd cfg <> EmptyString ->
     snd (CopyToClipboard resolve truncate quote tmpl run writeAll cfg str)
       = run (resolve (CopyToClipboardCmd cfg) [("text", quote str)])
             (ShellFunctionsFile cfg)).
Proof.
  unfold CopyToClipboard, is_set.
  destruct (CopyToClipboardCmd cfg) as [|c rest]; cbn [nonempty]; split;
    intros H; try congruence; reflexivity.
Qed.

Lemma FileExists_stat_cases_witness :
  FileExists sample_fs no_faults "/repo/missing" = (false, None) /\
  FileExists sample_fs stat_denied "/repo/exclude" = (false, Some ErrPermission) /\
  FileExists sample_fs no_faults "/repo/exclude" = (true, None).
Proof.
  split; [|split].
  - apply (proj1 (FileExists_stat_cases sample_fs no_faults "/repo/missing")
             ErrNotExist); reflexivity.
  - apply (proj1 (proj2 (FileExists_stat_cases sample_fs stat_denied "/repo/exclude"))
             ErrPermission); reflexivity.
  - apply (proj2 (proj2 (FileExists_stat_cases sample_fs no_faults "/repo/exclude"))
             4); reflexivity.
Defined.

Lemma AppendLineToFile_contents_witness :
  (fst (fst (AppendLineToFile sample_resolve "Appending" sample_fs no_faults
               "/repo/.gitignore" "dist"))) !! "/repo/.gitignore"
  = Some ("node_modules" +:+ newline +:+ "dist" +:+ newline) /\
  (fst (fst (AppendLineToFile sample_resolve "Appending" sample_fs no_faults
               "/repo/exclude" "dist"))) !! "/repo/exclude"
  = Some (String "*" (String "." (String "o" newline)) +:+ "dist" +:+ newline) /\
  (fst (fst (AppendLineToFile sample_resolve "Appending" sample_fs no_faults
               "/repo/new" "dist"))) !! "/repo/new"
  = Some ("dist" +:+ newline).
Proof.
  split; [|split].
  - refine (proj1 (proj2 (AppendLineToFile_contents sample_resolve "Appending"
              sample_fs _ no_faults "/repo/.gitignore" "dist" _ _)) _ _).
    + vm_compute. reflexivity.
    + vm_compute. discriminate.
    + vm_compute. discriminate.
  - refine (proj1 (proj2 (proj2 (AppendLineToFile_contents sample_resolve "Appending"
              sample_fs _ no_faults "/repo/exclude" "dist" _ _))) _).
    + vm_compute. reflexivity.
    + vm_compute. reflexivity.
  - refine (proj1 (AppendLineToFile_contents sample_resolve "Appending"
              sample_fs _ no_faults "/repo/new" "dist" _ _) _).
    + vm_compute. reflexivity.
    + vm_compute. reflexivity.
Defined.

Lemma PasteFromClipboard_crlf_to_lf_witness :
  snd (PasteFromClipboard sample_shell (Ok EmptyString) cfg_copy_only)
  = (a_lf_b, None).
Proof.
  refine (proj2 (proj2 (proj2 (proj1
            (PasteFromClipboard_crlf_to_lf sample_shell (Ok EmptyString) cfg_copy_only)
            _ a_crlf_b _))) _); reflexivity.
Defined.

Lemma PasteFromClipboard_gated_by_copy_cmd_witness :
  fst (PasteFromClipboard sample_shell (Ok a_crlf_b) cfg_read_only)
    = [EvClipboardRead] /\
  fst (PasteFromClipboard broken_shell (Ok a_crlf_b) cfg_copy_only)
    = [EvShell EmptyString EmptyString].
Proof.
  split.
  - apply (proj1 (PasteFromClipboard_gated_by_copy_cmd sample_shell (Ok a_crlf_b)
             cfg_read_only)). reflexivity.
  - apply (proj2 (PasteFromClipboard_gated_by_copy_cmd broken_shell (Ok a_crlf_b)
             cfg_copy_only)). discriminate.
Defined.

(** ** The pipeline: steps *)

Lemma step_Step (procs : list Proc) (t : tid) (st st' : State) :
  step procs t st = Some st' -> Step procs t st st' /\ crashed st = false.
Proof.
  unfold step. destruct (crashed st); [discriminate |].
  intros H. split; [|reflexivity].
  destruct t as [|i].
  - unfold main_step in H. destruct (main st) as [k| |r] eqn:Hm.
    + destruct (k <? length (gs st)) eqn:Hk; inversion H; subst.
      * apply Step_go; [exact Hm | apply Nat.ltb_lt, Hk].
      * eapply Step_loop_end; [exact Hm | apply Nat.ltb_ge, Hk].
    + destruct (wg st =? 0) eqn:Hw; inversion H; subst.
      apply Step_join; [exact Hm | apply Nat.eqb_eq, Hw].
    + discriminate.
  - unfold g_step in H.
    destruct (gs st !! i) as [g|] eqn:Hg; [|discriminate].
    destruct (cmds st !! i) as [c|] eqn:Hc; [|discriminate].
    destruct (procs !! i) as [p|] eqn:Hp; [|discriminate].
    pose proof (lookup_lt_Some _ _ _ Hc) as Hlc.
    pose proof (lookup_lt_Some _ _ _ Hp) as Hlp.
    destruct g as [| |stderr|[h|]|b|old b| | | |].
    + discriminate.
    + destruct (StderrPipe c (stderr_pipe_fault p) (next_pipe st))
        as [[c' h]|err] eqn:Hs; inversion H; subst.
      * eapply Step_stderr_pipe; eauto.
      * eapply Step_stderr_pipe_err; eauto.
    + destruct (Start c (start_err p)) as [c' err] eqn:Hs.
      inversion H; subst.
      replace c' with (fst (Start c (start_err p))) by (rewrite Hs; reflexivity).
      replace err with (snd (Start c (start_err p))) by (rewrite Hs; reflexivity).
      eapply Step_start; eauto.
    + destruct (stderr_out p) as [b|e] eqn:Hb.
      * destruct (0 <? String.length b) eqn:Hl; inversion H; subst.
        -- eapply Step_read_block; eauto. apply Nat.ltb_lt, Hl.
        -- eapply Step_read_nothing; eauto.
           intros b' Hb'. rewrite Hb in Hb'. inversion Hb'; subst.
           apply Nat.ltb_ge in Hl. lia.
      * inversion H; subst. eapply Step_read_nothing; eauto.
        intros b' Hb'. rewrite Hb in Hb'. discriminate.
    + inversion H; subst. apply Step_read_nil; auto.
    + inversion H; subst. apply Step_load; auto.
    + inversion H; subst. apply Step_store; auto.
    + inversion H; subst. eapply Step_wait; eauto.
    + inversion H; subst. apply Step_done; auto.
    + discriminate.
    + discriminate.
Qed.

(** ** The pipeline: counting over the goroutines *)

Lemma live_insert (l : list gstate) (i : nat) (g g' : gstate) :
  l !! i = Some g ->
  live (<[i := g']> l) + (if is_exited g then 0 else 1)
  = live l + (if is_exited g' then 0 else 1).
Proof.
  revert i. induction l as [|x l IH]; intros [|i] H; try discriminate.
  - inversion H; subst. cbn. destruct (is_exited g), (is_exited g'); lia.
  - cbn in H. specialize (IH i H). change (<[S i:=g']> (x :: l)) with (x :: <[i:=g']> l). cbn [live].
    revert IH. destruct (is_exited g), (is_exited g'), (is_exited x); lia.
Qed.


Lemma appending_insert (l : list gstate) (i : nat) (g g' : gstate) :
  l !! i = Some g ->
  appending (<[i := g']> l) + (if in_append g then 1 else 0)
  = appending l + (if in_append g' then 1 else 0).
Proof.
  revert i. induction l as [|x l IH]; intros [|i] H; try discriminate.
  - inversion H; subst. cbn. destruct (in_append g), (in_append g'); lia.
  - cbn in H. specialize (IH i H). change (<[S i:=g']> (x :: l)) with (x :: <[i:=g']> l). cbn [appending].
    revert IH. destruct (in_append g), (in_append g'), (in_append x); lia.
Qed.

Lemma appending_lookup (l : list gstate) (i : nat) (g : gstate) :
  l !! i = Some g -> in_append g = true -> 1 <= appending l.
Proof.
  revert i. induction l as [|x l IH]; intros [|i] H Hg; try discriminate.
  - inversion H; subst. cbn. rewrite Hg. lia.
  - cbn in H. specialize (IH i H Hg). cbn [appending]. lia.
Qed.

Lemma appending_two (l : list gstate) (i j : nat) (g g' : gstate) :
  i <> j -> l !! i = Some g -> l !! j = Some g' ->
  in_append g = true -> in_append g' = true -> 2 <= appending l.
Proof.
  revert i j. induction l as [|x l IH]; intros [|i] [|j] Hne Hi Hj Hg Hg';
    try discriminate; try congruence.
  - inversion Hi; subst. cbn in Hj. cbn [appending]. rewrite Hg.
    pose proof (appending_lookup _ _ _ Hj Hg'). lia.
  - inversion Hj; subst. cbn in Hi. cbn [appending]. rewrite Hg'.
    pose proof (appending_lookup _ _ _ Hi Hg). lia.
  - cbn in Hi, Hj. cbn [appending].
    assert (2 <= appending l) by (eapply (IH i j); eauto). lia.
Qed.

Lemma live_0 (l : list gstate) (i : nat) (g : gstate) :
  live l = 0 -> l !! i = Some g -> g = GExited.
Proof.
  revert i. induction l as [|x l IH]; intros [|i] H0 H; try discriminate.
  - inversion H; subst. cbn in H0. destruct g; cbn in H0; try lia. reflexivity.
  - cbn in H. cbn [live] in H0. eapply IH; [lia | exact H].
Qed.


Lemma live_replicate (n : nat) : live (replicate n GUnspawned) = n.
Proof. induction n as [|n IH]; cbn; [reflexivity | now rewrite IH]. Qed.

Lemma landed_replicate (n : nat) (procs : list Proc) :
  landed (replicate n GUnspawned) procs = [].
Proof.
  revert procs. induction n as [|n IH]; intros [|p procs]; cbn; auto.
Qed.

Lemma landed_insert_same (l : list gstate) (procs : list Proc) (i : nat) (g g' : gstate) :
  l !! i = Some g -> past_store g' = past_store g ->
  landed (<[i := g']> l) procs = landed l procs.
Proof.
  revert i procs. induction l as [|x l IH]; intros [|i] [|p procs] H Hp;
    try discriminate; try reflexivity.
  - inversion H; subst. cbn. rewrite Hp. reflexivity.
  - cbn in H. change (<[S i:=g']> (x :: l)) with (x :: <[i:=g']> l). cbn [landed].
    rewrite (IH i procs H Hp). reflexivity.
Qed.

Lemma landed_insert_nothing (l : list gstate) (procs : list Proc) (i : nat)
    (g g' : gstate) (p : Proc) :
  l !! i = Some g -> past_store g = false ->
  procs !! i = Some p -> proc_block p = None ->
  landed (<[i := g']> l) procs = landed l procs.
Proof.
  revert i procs. induction l as [|x l IH]; intros [|i] [|q procs] H Hg Hp Hb;
    try discriminate.
  - inversion H; inversion Hp; subst. cbn. rewrite Hg, Hb.
    destruct (past_store g'); reflexivity.
  - cbn in H, Hp. change (<[S i:=g']> (x :: l)) with (x :: <[i:=g']> l). cbn [landed].
    rewrite (IH i procs H Hg Hp Hb). reflexivity.
Qed.

Lemma landed_insert_block (l : list gstate) (procs : list Proc) (i : nat)
    (g g' : gstate) (b : string) :
  l !! i = Some g -> past_store g = false -> past_store g' = true ->
  procs !! i ≫= proc_block = Some b ->
  Permutation (landed l procs ++ [b]) (landed (<[i := g']> l) procs).
Proof.
  revert i procs. induction l as [|x l IH]; intros [|i] [|q procs] H Hg Hg' Hb;
    try discriminate.
  - inversion H; subst. cbn in Hb. cbn. rewrite Hg, Hg', Hb. cbn.
    symmetry. apply Permutation_cons_append.
  - cbn in H, Hb. change (<[S i:=g']> (x :: l)) with (x :: <[i:=g']> l). cbn [landed].
    rewrite <- app_assoc. apply Permutation_app_head.
    apply (IH i procs H Hg Hg' Hb).
Qed.

Lemma landed_all (l : list gstate) (procs : list Proc) :
  length l = length procs ->
  (forall i g, l !! i = Some g -> past_store g = true) ->
  landed l procs = omap proc_block procs.
Proof.
  revert procs. induction l as [|x l IH]; intros [|p procs] Hlen Hall;
    try discriminate; [reflexivity |].
  cbn [landed]. rewrite (Hall 0 x eq_refl).
  rewrite IH; [| cbn in Hlen; lia | intros i g Hi; apply (Hall (S i) g Hi)].
  cbn. destruct (proc_block p); reflexivity.
Qed.

(** ** The pipeline: the invariant of every run *)

Ltac st_simpl :=
  cbn [gs cmds wg main events finalErrors next_pipe with_g with_cmd
       with_events with_main with_finalErrors with_next_pipe with_wg] in *.

Lemma proc_block_elem (procs : list Proc) (i : nat) (b : string) :
  procs !! i ≫= proc_block = Some b -> b ∈ omap proc_block procs.
Proof.
  intros H. destruct (procs !! i) as [p|] eqn:Hp; [|discriminate].
  cbn in H. apply list_elem_of_omap. exists p. split; [|exact H].
  eapply list_elem_of_lookup_2, Hp.
Qed.

Lemma proc_block_Ok (p : Proc) (b : string) :
  stderr_out p = Ok b -> 0 < String.length b -> proc_block p = Some b.
Proof.
  intros Hb Hl. unfold proc_block. rewrite Hb.
  apply Nat.ltb_lt in Hl. rewrite Hl. reflexivity.
Qed.

Lemma proc_block_nothing (p : Proc) :
  (forall b, stderr_out p = Ok b -> String.length b = 0) -> proc_block p = None.
Proof.
  intros H. unfold proc_block. destruct (stderr_out p) as [b|e]; [|reflexivity].
  rewrite (H b eq_refl). reflexivity.
Qed.

(** A goroutine step moves one goroutine from [g] to [g']. *)
Lemma Step_G_gs (procs : list Proc) (i : nat) (st st' : State) :
  Step procs (G i) st st' ->
  exists g g', gs st !! i = Some g /\ gs st' = <[i := g']> (gs st) /\
    main st' = main st /\ rank g < rank g' /\
    g <> GUnspawned /\ g <> GExited /\ g' <> GUnspawned /\
    wg st' = wg st - (if is_exited g' then 1 else 0) /\
    length (cmds st') = length (cmds st) /\
    i < length (cmds st) /\ i < length procs.
Proof.
  intros H. inversion H; subst; st_simpl;
    repeat match goal with
           | Hc : cmds _ !! _ = Some _ |- _ => apply lookup_lt_Some in Hc
           | Hp : procs !! _ = Some _ |- _ => apply lookup_lt_Some in Hp
           end;
    eexists _, _; (split; [eassumption |]); (split; [reflexivity |]);
    rewrite ?length_insert; cbn [rank is_exited]; repeat split;
    try congruence; try lia.
Qed.

Lemma is_exited_false (g : gstate) : g <> GExited -> is_exited g = false.
Proof. destruct g; cbn; congruence. Qed.

(** The control part of the invariant. *)
Lemma inv_Step_control (procs : list Proc) (t : tid) (st st' : State) :
  inv procs st -> Step procs t st st' ->
  length (gs st') = length procs /\
  length (cmds st') = length procs /\
  wg st' = live (gs st') /\
  (forall k, main st' = MSpawn k ->
     k <= length (gs st') /\
     (forall j g, k <= j -> gs st' !! j = Some g -> g = GUnspawned) /\
     (forall j, j < k -> gs st' !! j <> Some GUnspawned)) /\
  (main st' = MWaitAll -> forall j, gs st' !! j <> Some GUnspawned) /\
  (forall r, main st' = MReturned r ->
     r = final_result (finalErrors st') /\ wg st' = 0).
Proof.
  intros I HS. destruct t as [|i].
  - inversion HS; subst; st_simpl.
    + (* go *)
      destruct (inv_spawn _ _ I k H) as (Hk & Hge & Hlt).
      assert (Hu : gs st !! k = Some GUnspawned).
      { destruct (lookup_lt_is_Some_2 (gs st) k H0) as [g Hg].
        rewrite Hg. f_equal. eapply Hge; [|exact Hg]. lia. }
      rewrite length_insert.
      split; [apply I |]. split; [apply I |]. split.
      { pose proof (live_insert _ _ _ GStderrPipe Hu) as HL. cbn in HL.
        rewrite (inv_wg _ _ I). lia. }
      split; [|split; [discriminate | discriminate]].
      intros k' Hk'. inversion Hk'; subst k'. split; [lia |]. split.
      * intros j g Hj Hg. rewrite list_lookup_insert_ne in Hg by lia.
        eapply Hge; [|exact Hg]. lia.
      * intros j Hj. destruct (decide (j = k)) as [->|Hne].
        -- rewrite list_lookup_insert_eq by lia. discriminate.
        -- rewrite list_lookup_insert_ne by lia. apply Hlt. lia.
    + (* the loop ends *)
      destruct (inv_spawn _ _ I k H) as (Hk & Hge & Hlt).
      split; [apply I |]. split; [apply I |]. split; [apply I |].
      split; [discriminate |]. split; [|discriminate].
      intros _ j. destruct (decide (j < k)) as [Hj|Hj]; [apply Hlt, Hj |].
      rewrite lookup_ge_None_2 by lia. discriminate.
    + (* join *)
      split; [apply I |]. split; [apply I |]. split; [apply I |].
      split; [discriminate |]. split; [discriminate |].
      intros r Hr. inversion Hr; subst. auto.
  - destruct (Step_G_gs _ _ _ _ HS)
      as (g & g' & Hg & Hgs & Hm & Hr & Hgu & Hge & Hgu' & Hwg & Hlc & Hic & Hip).
    rewrite Hgs, Hm, Hlc, length_insert.
    split; [apply I |]. split; [apply I |]. split.
    { pose proof (live_insert _ _ _ g' Hg) as HL.
      rewrite (is_exited_false g Hge) in HL.
      rewrite Hwg, (inv_wg _ _ I). destruct (is_exited g'); lia. }
    split; [|split].
    + intros k Hk. destruct (inv_spawn _ _ I k Hk) as (Hkl & Hkge & Hklt).
      split; [exact Hkl |]. split.
      * intros j g0 Hj Hg0. destruct (decide (j = i)) as [->|Hne].
        -- exfalso. apply Hgu. eapply Hkge; [exact Hj | exact Hg].
        -- rewrite list_lookup_insert_ne in Hg0 by congruence.
           eapply Hkge; [exact Hj | exact Hg0].
      * intros j Hj. destruct (decide (j = i)) as [->|Hne].
        -- rewrite list_lookup_insert_eq by (eapply lookup_lt_Some, Hg).
           congruence.
        -- rewrite list_lookup_insert_ne by congruence. apply Hklt, Hj.
    + intros Hw j. destruct (decide (j = i)) as [->|Hne].
      * rewrite list_lookup_insert_eq by (eapply lookup_lt_Some, Hg). congruence.
      * rewrite list_lookup_insert_ne by congruence. apply (inv_spawned _ _ I Hw).
    + intros r Hret. exfalso. apply Hge.
      destruct (inv_ret _ _ I r Hret) as [_ Hw0].
      eapply live_0; [|exact Hg]. rewrite <- (inv_wg _ _ I). exact Hw0.
Qed.


Ltac insert_cases H :=
  match type of H with
  | <[?i := _]> _ !! ?j = _ =>
      destruct (decide (j = i)) as [->|?];
      [ rewrite list_lookup_insert_eq in H
          by first [assumption | eapply lookup_lt_Some; eassumption]
      | rewrite list_lookup_insert_ne in H by congruence ]
  end.

(** The part of the invariant about [finalErrors]. *)
Lemma inv_Step_data (procs : list Proc) (t : tid) (st st' : State) :
  inv procs st -> Step procs t st st' ->
  (forall s, s ∈ finalErrors st' -> s ∈ omap proc_block procs) /\
  (forall i old b, gs st' !! i = Some (GStore old b) ->
     (forall s, s ∈ old -> s ∈ omap proc_block procs) /\
     procs !! i ≫= proc_block = Some b) /\
  (forall i b, gs st' !! i = Some (GLoad b) ->
     procs !! i ≫= proc_block = Some b) /\
  (landed (gs st') procs <> [] -> finalErrors st' <> []).
Proof.
  intros I HS.
  assert (Hfe : (forall s, s ∈ finalErrors st' -> s ∈ omap proc_block procs)).
  { inversion HS; subst; st_simpl; try apply I.
    intros s Hs. apply elem_of_app in Hs as [Hs|Hs].
    - eapply (inv_store _ _ I); eassumption.
    - apply list_elem_of_singleton in Hs. subst s.
      eapply proc_block_elem, (inv_store _ _ I). eassumption. }
  split; [exact Hfe |].
  split; [|split].
  - intros j old0 b0 Hl.
    inversion HS; subst; st_simpl; try (eapply (inv_store _ _ I); eassumption);
      insert_cases Hl; try discriminate;
      try (eapply (inv_store _ _ I); eassumption).
    inversion Hl; subst. split; [apply I | eapply (inv_load _ _ I); eassumption].
  - intros j b0 Hl.
    inversion HS; subst; st_simpl; try (eapply (inv_load _ _ I); eassumption);
      insert_cases Hl; try discriminate;
      try (eapply (inv_load _ _ I); eassumption).
    inversion Hl; subst.
    match goal with Hp : procs !! _ = Some _ |- _ => rewrite Hp end.
    cbn. apply proc_block_Ok; assumption.
  - inversion HS; subst; st_simpl; try apply I;
      try (erewrite landed_insert_same; [apply I | eassumption | reflexivity]).
    + (* go *)
      destruct (inv_spawn _ _ I k H) as (Hk & Hge & Hlt).
      destruct (lookup_lt_is_Some_2 (gs st) k H0) as [g Hg].
      erewrite landed_insert_same; [apply I | exact Hg |].
      rewrite (Hge k g (le_n _) Hg). reflexivity.
    + (* nothing read *)
      erewrite landed_insert_nothing; [apply I | eassumption | reflexivity
                                      | eassumption |].
      apply proc_block_nothing. assumption.
    + (* store *)
      intros _. destruct old; discriminate.
Qed.

Lemma inv_Step (procs : list Proc) (t : tid) (st st' : State) :
  inv procs st -> Step procs t st st' -> inv procs st'.
Proof.
  intros I HS.
  destruct (inv_Step_control _ _ _ _ I HS) as (H1 & H2 & H3 & H4 & H5 & H6).
  destruct (inv_Step_data _ _ _ _ I HS) as (H7 & H8 & H9 & H10).
  constructor; assumption.
Qed.

Lemma inv_exec (procs : list Proc) (sched : list tid) (st st' : State) :
  inv procs st -> exec procs sched st = Some st' -> inv procs st'.
Proof.
  revert st. induction sched as [|t sched IH]; intros st I H; cbn in H.
  - inversion H; subst. exact I.
  - destruct (step procs t st) as [st1|] eqn:Hs; [|discriminate].
    apply (IH st1); [|exact H].
    eapply inv_Step; [exact I | apply step_Step, Hs].
Qed.

(** ** The pipeline: the wiring *)

Lemma StdoutPipe_Ok (c c' : Cmd) (fault : option error) (k : nat) (h : handle) :
  StdoutPipe c fault k = Ok (c', h) ->
  c' = set_Stdout (PipeW k) c /\ h = PipeR k.
Proof.
  unfold StdoutPipe. destruct (Stdout c); [discriminate |].
  destruct (Process c); [discriminate |].
  destruct fault; [discriminate |]. intros H; inversion H; auto.
Qed.

(** What the wiring loop leaves in each command: [Stderr] and [Process]
    as they were; and, when no [StdoutPipe] failed, a pipe's write end as
    [Stdout] of the stages the loop went over and its read end as [Stdin]
    of their successors, everything else as it was. *)
Lemma wire_loop_spec (procs : list Proc) (iters : nat) :
  forall (i : nat) (cs : list Cmd) (next : nat) cs' next' err,
  wire_loop procs iters i cs next = (cs', next', err) ->
  length cs' = length cs /\
  forall j c', cs' !! j = Some c' ->
    exists c, cs !! j = Some c /\
      Stderr c' = Stderr c /\ Process c' = Process c /\
      (err = None ->
         (i <= j < i + iters -> Stdout c' = Some (PipeW (next + (j - i)))) /\
         (~ (i <= j < i + iters) -> Stdout c' = Stdout c) /\
         (i < j <= i + iters -> Stdin c' = Some (PipeR (next + (j - 1 - i)))) /\
         (~ (i < j <= i + iters) -> Stdin c' = Stdin c)).
Proof.
  induction iters as [|iters IH]; intros i cs next cs' next' err H; cbn in H.
  - inversion H; subst. split; [reflexivity |].
    intros j c' Hj. exists c'. repeat split; auto; intros; lia.
  - destruct (cs !! i) as [c|] eqn:Hc.
    2:{ inversion H; subst. split; [reflexivity |].
        intros j c' Hj. exists c'. repeat split; auto; discriminate. }
    destruct (procs !! i) as [p|] eqn:Hp.
    2:{ inversion H; subst. split; [reflexivity |].
        intros j c' Hj. exists c'. repeat split; auto; discriminate. }
    destruct (StdoutPipe c (stdout_pipe_fault p) next) as [[c1 h]|e] eqn:Hs.
    2:{ inversion H; subst. split; [reflexivity |].
        intros j c' Hj. exists c'. repeat split; auto; discriminate. }
    apply StdoutPipe_Ok in Hs as [-> ->].
    apply IH in H as [Hlen Hall].
    rewrite length_alter, length_insert in Hlen. split; [exact Hlen |].
    intros j c' Hj. destruct (Hall j c' Hj) as (c2 & Hc2 & He & Hpr & Hw).
    destruct (decide (j = i + 1)) as [->|Hne1].
    + rewrite list_lookup_alter_eq in Hc2.
      rewrite list_lookup_insert_ne in Hc2 by lia.
      destruct (cs !! (i + 1)) as [d|] eqn:Hd; cbn in Hc2; [|discriminate].
      inversion Hc2; subst c2. exists d. split; [reflexivity |].
      split; [exact He |]. split; [exact Hpr |].
      intros Herr. destruct (Hw Herr) as (W1 & W2 & W3 & W4).
      cbn [set_Stdin Stdin Stdout] in *.
      repeat split; intros Hr.
      * rewrite W1 by lia. f_equal. f_equal. lia.
      * rewrite W2 by lia. reflexivity.
      * rewrite W4 by lia. f_equal. f_equal. lia.
      * lia.
    + rewrite list_lookup_alter_ne in Hc2 by lia.
      destruct (decide (j = i)) as [->|Hne].
      * rewrite list_lookup_insert_eq in Hc2 by (eapply lookup_lt_Some, Hc).
        inversion Hc2; subst c2. exists c. split; [exact Hc |].
        split; [exact He |]. split; [exact Hpr |].
        intros Herr. destruct (Hw Herr) as (W1 & W2 & W3 & W4).
        cbn [set_Stdout Stdin Stdout] in *.
        repeat split; intros Hr.
        -- rewrite W2 by lia. f_equal. f_equal. lia.
        -- lia.
        -- lia.
        -- apply W4. lia.
      * rewrite list_lookup_insert_ne in Hc2 by lia.
        exists c2. split; [exact Hc2 |].
        split; [exact He |]. split; [exact Hpr |].
        intros Herr. destruct (Hw Herr) as (W1 & W2 & W3 & W4).
        repeat split; intros Hr.
        -- rewrite W1 by lia. f_equal. f_equal. lia.
        -- apply W2. lia.
        -- rewrite W3 by lia. f_equal. f_equal. lia.
        -- apply W4. lia.
Qed.

(** ** The pipeline: the state the goroutines start from *)

Lemma start_state_fields (cmdObjs : list CmdObj) :
  gs (start_state cmdObjs) = replicate (length cmdObjs) GUnspawned /\
  finalErrors (start_state cmdObjs) = [] /\
  wg (start_state cmdObjs) = length cmdObjs /\
  cmds (start_state cmdObjs) = fst (fst (wire cmdObjs)) /\
  events (start_state cmdObjs)
    = LogCommand (Join (map ToString cmdObjs) " | ") true /\
  main (start_state cmdObjs)
    = match wiring_error cmdObjs with
      | Some e => MReturned (Some e)
      | None => MSpawn 0
      end.
Proof.
  unfold start_state, wiring_error.
  destruct (wire cmdObjs) as [[cs next] err]. cbn. auto 10.
Qed.

Lemma start_state_cmds_length (cmdObjs : list CmdObj) :
  length (cmds (start_state cmdObjs)) = length cmdObjs.
Proof.
  destruct (start_state_fields cmdObjs) as (_ & _ & _ & -> & _).
  unfold wire. destruct (wire_loop _ _ _ _ _) as [[cs next] err] eqn:Hw.
  apply wire_loop_spec in Hw as [Hlen _]. cbn.
  rewrite Hlen. apply length_map.
Qed.

Lemma lookup_replicate_unspawned (n i : nat) (g : gstate) :
  replicate n GUnspawned !! i = Some g -> g = GUnspawned.
Proof. intros H. apply lookup_replicate in H as [-> _]. reflexivity. Qed.

Lemma inv_start (cmdObjs : list CmdObj) :
  wiring_error cmdObjs = None ->
  inv (map proc cmdObjs) (start_state cmdObjs).
Proof.
  intros Hw.
  destruct (start_state_fields cmdObjs) as (Hgs & Hfe & Hwg & Hcs & Hev & Hm).
  rewrite Hw in Hm.
  constructor.
  - rewrite Hgs, length_replicate, length_map. reflexivity.
  - rewrite start_state_cmds_length, length_map. reflexivity.
  - rewrite Hwg, Hgs, live_replicate. reflexivity.
  - intros k Hk. rewrite Hm in Hk. inversion Hk; subst k.
    split; [lia |]. split; [|intros j Hj; lia].
    intros j g _ Hg. rewrite Hgs in Hg.
    eapply lookup_replicate_unspawned, Hg.
  - rewrite Hm. discriminate.
  - rewrite Hfe. intros s Hs. inversion Hs.
  - intros i old b Hg. rewrite Hgs in Hg.
    apply lookup_replicate_unspawned in Hg. discriminate.
  - intros i b Hg. rewrite Hgs in Hg.
    apply lookup_replicate_unspawned in Hg. discriminate.
  - rewrite Hgs, landed_replicate. congruence.
  - rewrite Hm. discriminate.
Qed.

Lemma PipeCommands_inv (cmdObjs : list CmdObj) (sched : list tid) (st : State) :
  wiring_error cmdObjs = None ->
  PipeCommands cmdObjs sched = Some st ->
  inv (map proc cmdObjs) st.
Proof.
  intros Hw H. eapply inv_exec; [apply inv_start, Hw | exact H].
Qed.

(** When a [StdoutPipe] fails, [PipeCommands] returns its error and
    nothing else happens. *)
Lemma PipeCommands_unwired (cmdObjs : list CmdObj) (sched : list tid)
    (st : State) (e : error) :
  wiring_error cmdObjs = Some e ->
  PipeCommands cmdObjs sched = Some st ->
  st = start_state cmdObjs /\ main st = MReturned (Some e).
Proof.
  intros Hw H.
  destruct (start_state_fields cmdObjs) as (Hgs & Hfe & Hwg & Hcs & Hev & Hm).
  rewrite Hw in Hm. unfold PipeCommands in H.
  destruct sched as [|t sched]; cbn in H.
  - inversion H; subst. auto.
  - exfalso.
    destruct (step (map proc cmdObjs) t (start_state cmdObjs)) as [st1|] eqn:Hs;
      [|discriminate].
    apply step_Step in Hs as [Hs _].
    destruct t as [|i].
    + inversion Hs; subst; congruence.
    + destruct (Step_G_gs _ _ _ _ Hs) as (g & g' & Hg & _ & _ & _ & Hgu & _).
      rewrite Hgs in Hg. apply lookup_replicate_unspawned in Hg. congruence.
Qed.

(** ** The pipeline: every run comes to an end *)









(** ** The pipeline: no panic when every [StderrPipe] succeeds *)







(** ** The pipeline: what the call returns *)

Lemma final_result_None (fe : list string) :
  final_result fe <> None <-> fe <> [].
Proof.
  unfold final_result. destruct fe as [|s fe]; cbn; split; congruence.
Qed.

Lemma string_length_pos (b : string) : 0 < String.length b <-> b <> EmptyString.
Proof. destruct b; cbn; split; intros; try congruence; lia. Qed.

Lemma stderr_blocks_some (cmdObjs : list CmdObj) :
  stderr_blocks cmdObjs <> [] <-> some_stderr cmdObjs.
Proof.
  unfold stderr_blocks, some_stderr. split.
  - intros Hne.
    destruct (omap proc_block (map proc cmdObjs)) as [|b l] eqn:E; [congruence |].
    assert (Hb : b ∈ omap proc_block (map proc cmdObjs))
      by (rewrite E; left).
    apply list_elem_of_omap in Hb as (p & Hp & Hpb).
    apply list_elem_of_fmap in Hp as (o & -> & Ho).
    exists o, b. split; [exact Ho |].
    unfold proc_block in Hpb. destruct (stderr_out (proc o)) as [b'|e];
      [|discriminate].
    destruct (0 <? String.length b') eqn:Hl; inversion Hpb; subst.
    split; [reflexivity |]. apply string_length_pos, Nat.ltb_lt, Hl.
  - intros (o & b & Ho & Hb & Hne) E.
    assert (Hin : b ∈ omap proc_block (map proc cmdObjs)).
    { apply list_elem_of_omap. exists (proc o). split.
      - apply list_elem_of_fmap. eauto.
      - apply proc_block_Ok; [exact Hb | apply string_length_pos, Hne]. }
    rewrite E in Hin. inversion Hin.
Qed.

(** At the return of a wired run every goroutine has exited, so that the
    blocks past the append are all the blocks. *)
Lemma returned_landed (cmdObjs : list CmdObj) (st : State) (r : option error) :
  inv (map proc cmdObjs) st -> main st = MReturned r ->
  r = final_result (finalErrors st) /\
  landed (gs st) (map proc cmdObjs) = stderr_blocks cmdObjs.
Proof.
  intros I Hm. destruct (inv_ret _ _ I r Hm) as [Hr Hw]. split; [exact Hr |].
  apply landed_all; [apply I |].
  intros i g Hg.
  rewrite (live_0 (gs st) i g); [reflexivity | | exact Hg].
  rewrite <- (inv_wg _ _ I). exact Hw.
Qed.

Lemma returned_main (st : State) (r : option error) :
  returned st = Some r -> main st = MReturned r.
Proof.
  unfold returned. destruct (main st); intros H; inversion H; reflexivity.
Qed.

Lemma PipeCommands_result (cmdObjs : list CmdObj) (sched : list tid)
    (st : State) (r : option error) :
  PipeCommands cmdObjs sched = Some st -> returned st = Some r ->
  (r <> None <-> wiring_error cmdObjs <> None \/ some_stderr cmdObjs).
Proof.
  intros H Hret. apply returned_main in Hret.
  destruct (wiring_error cmdObjs) as [e|] eqn:Hw.
  - destruct (PipeCommands_unwired _ _ _ _ Hw H) as [_ Hm].
    rewrite Hm in Hret. inversion Hret; subst. split; [auto | discriminate].
  - pose proof (PipeCommands_inv _ _ _ Hw H) as I.
    destruct (returned_landed _ _ _ I Hret) as [-> Hl].
    rewrite final_result_None, <- stderr_blocks_some, <- Hl. split.
    + intros Hfe. right. intros E.
      destruct (finalErrors st) as [|s fe] eqn:Efe; [congruence |].
      assert (Hs : s ∈ omap proc_block (map proc cmdObjs))
        by (apply (inv_fe _ _ I); rewrite Efe; left).
      change (omap proc_block (map proc cmdObjs)) with (stderr_blocks cmdObjs) in Hs.
      rewrite <- Hl, E in Hs. inversion Hs.
    + intros [Hn|Hn]; [congruence | apply (inv_landed _ _ I), Hn].
Qed.





(** ** The pipeline: runs whose appends do not overlap *)

Lemma exclusive_two (st : State) (i j : nat) (o1 o2 : list string) (b1 b2 : string) :
  exclusive st = true -> i <> j ->
  gs st !! i = Some (GStore o1 b1) -> gs st !! j = Some (GStore o2 b2) -> False.
Proof.
  unfold exclusive. intros He Hne Hi Hj. apply Nat.leb_le in He.
  pose proof (appending_two (gs st) i j _ _ Hne Hi Hj eq_refl eq_refl). lia.
Qed.

Lemma sinv_Step (procs : list Proc) (t : tid) (st st' : State) :
  inv procs st -> sinv procs st -> exclusive st = true ->
  Step procs t st st' -> sinv procs st'.
Proof.
  intros I S He HS. constructor.
  - inversion HS; subst; st_simpl; try apply S;
      try (erewrite landed_insert_same; [apply S | eassumption | reflexivity]).
    + (* go *)
      destruct (inv_spawn _ _ I k H) as (Hk & Hge & Hlt).
      destruct (lookup_lt_is_Some_2 (gs st) k H0) as [g Hg].
      erewrite landed_insert_same; [apply S | exact Hg |].
      rewrite (Hge k g (le_n _) Hg). reflexivity.
    + (* nothing read *)
      erewrite landed_insert_nothing; [apply S | eassumption | reflexivity
                                      | eassumption |].
      apply proc_block_nothing. assumption.
    + (* store *)
      rewrite (sinv_fresh _ _ S i old b H).
      etransitivity; [apply Permutation_app_tail, (sinv_fe _ _ S) |].
      eapply landed_insert_block; [eassumption | reflexivity | reflexivity |].
      eapply (inv_store _ _ I). eassumption.
  - intros j old0 b0 Hl.
    inversion HS; subst; st_simpl; try (eapply (sinv_fresh _ _ S); eassumption);
      insert_cases Hl; try discriminate;
      try (eapply (sinv_fresh _ _ S); eassumption).
    + inversion Hl; subst. reflexivity.
    + exfalso.
      match goal with
      | Hs : gs st !! ?i = Some (GStore _ _) |- _ =>
          eapply (exclusive_two st i j _ _ _ _ He); [congruence | exact Hs | exact Hl]
      end.
Qed.

Lemma sinv_exec (procs : list Proc) (sched : list tid) (st st' : State) :
  inv procs st -> sinv procs st ->
  forallb exclusive (run_states procs sched st) = true ->
  exec procs sched st = Some st' -> sinv procs st'.
Proof.
  revert st. induction sched as [|t sched IH]; intros st I S Hx H; cbn in H.
  - inversion H; subst. exact S.
  - cbn [run_states forallb] in Hx.
    destruct (step procs t st) as [st1|] eqn:Hs; [|discriminate].
    apply andb_true_iff in Hx as [Hx0 Hx].
    apply step_Step in Hs as [HS _].
    apply (IH st1); [eapply inv_Step | eapply sinv_Step | exact Hx | exact H];
      eassumption.
Qed.

Lemma sinv_start (cmdObjs : list CmdObj) :
  sinv (map proc cmdObjs) (start_state cmdObjs).
Proof.
  destruct (start_state_fields cmdObjs) as (Hgs & Hfe & _).
  constructor.
  - rewrite Hgs, Hfe, landed_replicate. constructor.
  - intros i old b Hg. rewrite Hgs in Hg.
    apply lookup_replicate_unspawned in Hg. discriminate.
Qed.

Lemma Step_appends (procs : list Proc) (t : tid) (st st' : State) :
  inv procs st -> sinv procs st -> Step procs t st st' ->
  finalErrors st' = finalErrors st ++ blocks_of procs (assigns st t).
Proof.
  intros I S HS. unfold blocks_of.
  inversion HS; subst; st_simpl; unfold assigns;
    try (rewrite app_nil_r; reflexivity);
    match goal with
    | Hg : gs st !! ?i = Some _ |- _ => rewrite Hg
    end;
    try (rewrite app_nil_r; reflexivity).
  cbn [omap list_omap].
  match goal with
  | Hg : gs st !! ?i = Some (GStore ?old ?b) |- _ =>
      rewrite (sinv_fresh _ _ S i old b Hg);
      destruct (inv_store _ _ I i old b Hg) as [_ ->]
  end.
  reflexivity.
Qed.

Lemma exec_appends (procs : list Proc) (sched : list tid) (st st' : State) :
  inv procs st -> sinv procs st ->
  forallb exclusive (run_states procs sched st) = true ->
  exec procs sched st = Some st' ->
  finalErrors st'
  = finalErrors st ++ blocks_of procs (stages_in_order assigns procs sched st).
Proof.
  revert st. induction sched as [|t sched IH]; intros st I S Hx H; cbn in H.
  - inversion H; subst. cbn. rewrite app_nil_r. reflexivity.
  - cbn [run_states forallb] in Hx. cbn [stages_in_order].
    destruct (step procs t st) as [st1|] eqn:Hs; [|discriminate].
    apply andb_true_iff in Hx as [Hx0 Hx].
    apply step_Step in Hs as [HS _].
    rewrite (IH st1 (inv_Step _ _ _ _ I HS) (sinv_Step _ _ _ _ I S Hx0 HS) Hx H).
    rewrite (Step_appends _ _ _ _ I S HS).
    unfold blocks_of. rewrite omap_app, app_assoc. reflexivity.
Qed.

(** C2. When the stages were wired and some stage wrote to stderr, in
    every run whose appends to [finalErrors] do not overlap the error
    returned is the newline-join of the stderr blocks of the stages in the
    order in which their goroutines made the assignment to [finalErrors];
    these are exactly the non-empty stderr blocks, each verbatim and once:
    a permutation of the stage order. *)
Theorem PipeCommands_error_blocks (cmdObjs : list CmdObj) (sched : list tid)
    (st : State) (r : option error) :
  wiring_error cmdObjs = None ->
  appends_serialized cmdObjs sched = true ->
  PipeCommands cmdObjs sched = Some st -> returned st = Some r ->
  some_stderr cmdObjs ->
  finalErrors st = appended_blocks cmdObjs sched /\
  appended_blocks cmdObjs sched ≡ₚ stderr_blocks cmdObjs /\
  r = Some (errors_New (Join (appended_blocks cmdObjs sched) newline)).
Proof.
  intros Hw Hx H Hret Hsome. apply returned_main in Hret.
  pose proof (PipeCommands_inv _ _ _ Hw H) as I.
  pose proof (sinv_exec _ _ _ _ (inv_start _ Hw) (sinv_start _) Hx H) as S.
  destruct (returned_landed _ _ _ I Hret) as [-> Hl].
  assert (HP : finalErrors st ≡ₚ stderr_blocks cmdObjs)
    by (rewrite <- Hl; apply S).
  assert (HA : finalErrors st = appended_blocks cmdObjs sched).
  { rewrite (exec_appends _ _ _ _ (inv_start _ Hw) (sinv_start _) Hx H).
    destruct (start_state_fields cmdObjs) as (_ & -> & _). reflexivity. }
  rewrite <- HA. split; [reflexivity | split; [exact HP |]].
  apply stderr_blocks_some in Hsome.
  unfold final_result.
  destruct (finalErrors st) as [|s fe]; [|reflexivity].
  exfalso. apply Hsome. apply Permutation_nil in HP. exact HP.
Qed.

Lemma two_failing_some_stderr : some_stderr two_failing.
Proof.
  exists cmd_ls_missing, "ls: /missing: No such file or directory".
  split; [left | split; [reflexivity | discriminate]].
Qed.

Lemma PipeCommands_error_blocks_witness :
  append_order two_failing sched_second_first = [1; 0] /\
  appended_blocks two_failing sched_second_first ≡ₚ stderr_blocks two_failing /\
  returned (final_state two_failing sched_second_first)
    = Some (Some (errors_New
        (Join (appended_blocks two_failing sched_second_first) newline))).
Proof.
  destruct (PipeCommands_error_blocks two_failing sched_second_first
              (final_state two_failing sched_second_first)
              (Some (errors_New ("cat: /absent: No such file or directory"
                                 +:+ newline
                                 +:+ "ls: /missing: No such file or directory"))))
    as (_ & HP & Hr).
  - vm_compute. reflexivity.
  - vm_compute. reflexivity.
  - vm_compute. reflexivity.
  - vm_compute. reflexivity.
  - exact two_failing_some_stderr.
  - split; [vm_compute; reflexivity |].
    split; [exact HP |]. rewrite <- Hr. vm_compute. reflexivity.
Defined.

(** The order of the appends is not the order in which the reads of
    stderr returned: the read and the append are two statements, and
    another goroutine can append between them. *)
Lemma PipeCommands_append_order_not_drain_order :
  appends_serialized two_failing sched_drained_first = true /\
  drain_order two_failing sched_drained_first = [0; 1] /\
  append_order two_failing sched_drained_first = [1; 0] /\
  returned (final_state two_failing sched_drained_first)
    = Some (Some (errors_New ("cat: /absent: No such file or directory"
                              +:+ newline
                              +:+ "ls: /missing: No such file or directory"))).
Proof.
  split; [|split; [|split]]; vm_compute; reflexivity.
Qed.

Lemma PipeCommands_error_blocks_counterexample :
  ~ error_in_stage_order two_failing sched_second_first.
Proof.
  intros Hclaim.
  specialize (Hclaim (final_state two_failing sched_second_first)
                (Some (errors_New ("cat: /absent: No such file or directory"
                                   +:+ newline
                                   +:+ "ls: /missing: No such file or directory")))).
  assert (H1 : PipeCommands two_failing sched_second_first
               = Some (final_state two_failing sched_second_first))
    by (vm_compute; reflexivity).
  assert (H2 : returned (final_state two_failing sched_second_first)
               = Some (Some (errors_New ("cat: /absent: No such file or directory"
                                   +:+ newline
                                   +:+ "ls: /missing: No such file or directory"))))
    by (vm_compute; reflexivity).
  specialize (Hclaim H1 H2 two_failing_some_stderr).
  vm_compute in Hclaim. discriminate Hclaim.
Qed.

(** C3. The appends to [finalErrors] are not serialized: with two stages
    that both write to stderr there is a run in which both goroutines are
    inside the append at once, and the block of the first stage is lost. *)
Theorem PipeCommands_appends_overlap :
  ~ appends_always_serialized two_failing /\
  PipeCommands two_failing sched_overlap
    = Some (final_state two_failing sched_overlap) /\
  appends_serialized two_failing sched_overlap = false /\
  returned (final_state two_failing sched_overlap)
    = Some (Some (errors_New "cat: /absent: No such file or directory")).
Proof.
  split; [|split; [|split]].
  - intros Hclaim. specialize (Hclaim sched_overlap).
    vm_compute in Hclaim. discriminate Hclaim.
  - vm_compute. reflexivity.
  - vm_compute. reflexivity.
  - vm_compute. reflexivity.
Qed.

(** ** The pipeline: the log record *)

Lemma Step_events (procs : list Proc) (t : tid) (st st' : State) :
  Step procs t st st' ->
  exists evs, events st' = events st ++ evs /\
    (forall e, e ∈ evs -> is_observer e = false) /\
    (t = Main -> evs = []).
Proof.
  intros HS.
  assert (Hlog : forall err e, e ∈ log_error err -> is_observer e = false).
  { intros [err|] e He; cbn in He.
    - apply list_elem_of_singleton in He. subst. reflexivity.
    - inversion He. }
  inversion HS; subst; st_simpl;
    try (exists []; rewrite app_nil_r; split; [reflexivity |];
         split; [intros e He; inversion He | reflexivity]);
    eexists; (split; [reflexivity |]); (split; [|discriminate]);
    intros e He.
  - apply list_elem_of_singleton in He. subst. reflexivity.
  - apply elem_of_cons in He as [->|He]; [reflexivity | eapply Hlog, He].
  - apply elem_of_cons in He as [->|He]; [reflexivity | eapply Hlog, He].
Qed.

Lemma exec_events (procs : list Proc) (sched : list tid) (st st' : State) :
  exec procs sched st = Some st' ->
  exists evs, events st' = events st ++ evs /\
    (forall e, e ∈ evs -> is_observer e = false).
Proof.
  revert st. induction sched as [|t sched IH]; intros st H; cbn in H.
  - inversion H; subst. exists []. rewrite app_nil_r.
    split; [reflexivity | intros e He; inversion He].
  - destruct (step procs t st) as [st1|] eqn:Hs; [|discriminate].
    apply step_Step in Hs as [HS _].
    destruct (Step_events _ _ _ _ HS) as (evs1 & E1 & H1 & _).
    destruct (IH st1 H) as (evs2 & E2 & H2).
    exists (evs1 ++ evs2). rewrite E2, E1, app_assoc. split; [reflexivity |].
    intros e He. apply elem_of_app in He as [He|He]; auto.
Qed.

(** C7. Every run of [PipeCommands] has made, before anything else, one
    call to the logger and one to the observer, with the stages' display
    strings joined by [" | "] and the command-line flag true; no other
    record goes to the observer, so that every [Start] of a stage comes
    after it, also in the runs that fail. *)
Theorem PipeCommands_logs_first (cmdObjs : list CmdObj) (sched : list tid) (st : State) :
  PipeCommands cmdObjs sched = Some st ->
  let logCmdStr := Join (map ToString cmdObjs) " | " in
  exists rest,
    events st = EvLogInfo logCmdStr :: EvObserver logCmdStr true :: rest /\
    (forall e, e ∈ rest -> is_observer e = false) /\
    (forall k i, events st !! k = Some (EvStart i) -> 2 <= k).
Proof.
  intros H logCmdStr. unfold PipeCommands in H.
  destruct (exec_events _ _ _ _ H) as (rest & E & Hrest).
  destruct (start_state_fields cmdObjs) as (_ & _ & _ & _ & Hev & _).
  rewrite Hev in E. exists rest. split; [exact E |]. split; [exact Hrest |].
  intros k i Hk. rewrite E in Hk.
  destruct k as [|[|k]]; [discriminate | discriminate | lia].
Qed.

Lemma PipeCommands_logs_first_witness :
  exists rest,
    events (final_state [cmd_ls_missing; cmd_sort; cmd_head]
              (seq_sched [cmd_ls_missing; cmd_sort; cmd_head]))
    = EvLogInfo "ls /missing | sort | head -n 2"
      :: EvObserver "ls /missing | sort | head -n 2" true :: rest /\
    (forall e, e ∈ rest -> is_observer e = false) /\
    (forall k i,
       events (final_state [cmd_ls_missing; cmd_sort; cmd_head]
                 (seq_sched [cmd_ls_missing; cmd_sort; cmd_head])) !! k
       = Some (EvStart i) -> 2 <= k).
Proof.
  apply (PipeCommands_logs_first [cmd_ls_missing; cmd_sort; cmd_head]
           (seq_sched [cmd_ls_missing; cmd_sort; cmd_head])).
  vm_compute. reflexivity.
Defined.

(** ** The pipeline: the empty sequence *)

Lemma exec_no_stage_events (sched : list tid) (st st' : State) :
  exec [] sched st = Some st' -> events st' = events st.
Proof.
  revert st. induction sched as [|t sched IH]; intros st H; cbn in H.
  - inversion H; subst. reflexivity.
  - destruct (step [] t st) as [st1|] eqn:Hs; [|discriminate].
    apply step_Step in Hs as [HS _].
    rewrite (IH st1 H).
    destruct t as [|i].
    + destruct (Step_events _ _ _ _ HS) as (evs & E & _ & Hmain).
      rewrite E, (Hmain eq_refl), app_nil_r. reflexivity.
    + destruct (Step_G_gs _ _ _ _ HS) as (g & g' & _ & _ & _ & _ & _ & _ & _ & _ & _ & _ & Hi).
      cbn in Hi. lia.
Qed.

(** C5. [PipeCommands] does not check the number of commands: on the
    empty sequence every run that returns returns nil, having logged the
    empty command string and nothing else; and there is such a run. *)
Theorem PipeCommands_empty_accepted :
  (forall sched st r,
     PipeCommands [] sched = Some st -> returned st = Some r ->
     r = None /\ events st = LogCommand EmptyString true) /\
  PipeCommands [] [Main; Main] = Some (final_state [] [Main; Main]) /\
  returned (final_state [] [Main; Main]) = Some None.
Proof.
  split; [|split; reflexivity].
  intros sched st r H Hret. split.
  - destruct r as [e|]; [exfalso | reflexivity].
    destruct (proj1 (PipeCommands_result [] sched st (Some e) H Hret))
      as [Hw|(o & b & Ho & _)]; [discriminate | apply Hw; reflexivity | inversion Ho].
  - unfold PipeCommands in H. cbn [map] in H.
    rewrite (exec_no_stage_events _ _ _ H). reflexivity.
Qed.

Lemma PipeCommands_empty_accepted_witness :
  Some None = Some (@None error) /\
  events (final_state [] [Main; Main]) = LogCommand EmptyString true.
Proof.
  split; [reflexivity |].
  apply (proj1 PipeCommands_empty_accepted [Main; Main]
           (final_state [] [Main; Main]) None); reflexivity.
Defined.

Lemma PipeCommands_empty_accepted_counterexample :
  ~ rejects_empty [Main; Main].
Proof.
  intros Hclaim.
  apply (Hclaim (final_state [] [Main; Main]) None); reflexivity.
Qed.

(** ** The pipeline: the wiring stays *)

Lemma StderrPipe_Ok (c c' : Cmd) (fault : option error) (k : nat) (h : handle) :
  StderrPipe c fault k = Ok (c', h) -> c' = set_Stderr (PipeW k) c.
Proof.
  unfold StderrPipe. destruct (Stderr c); [discriminate |].
  destruct (Process c); [discriminate |].
  destruct fault; [discriminate |]. intros H; inversion H; auto.
Qed.

Lemma Start_streams (c : Cmd) (fault : option error) :
  Stdin (fst (Start c fault)) = Stdin c /\
  Stdout (fst (Start c fault)) = Stdout c.
Proof.
  unfold Start. destruct (Process c); [auto |]. destruct fault; auto.
Qed.

Lemma fmap_insert_same {B : Type} (f : Cmd -> B) (l : list Cmd) (i : nat) (c c' : Cmd) :
  l !! i = Some c -> f c' = f c -> map f (<[i := c']> l) = map f l.
Proof.
  intros Hl Hf.
  change (f <$> <[i:=c']> l = f <$> l).
  rewrite list_fmap_insert. apply list_insert_id.
  rewrite list_lookup_fmap, Hl, Hf. reflexivity.
Qed.

(** No step touches the [Stdin] or the [Stdout] of a command. *)
Lemma Step_streams (procs : list Proc) (t : tid) (st st' : State) :
  Step procs t st st' ->
  map Stdin (cmds st') = map Stdin (cmds st) /\
  map Stdout (cmds st') = map Stdout (cmds st).
Proof.
  intros HS. inversion HS; subst; st_simpl; auto.
  - match goal with
    | Hp : StderrPipe _ _ _ = Ok _ |- _ => apply StderrPipe_Ok in Hp; subst
    end.
    split; eapply fmap_insert_same; eauto.
  - destruct (Start_streams c (start_err p)) as [H2 H3].
    split; eapply fmap_insert_same; eauto.
Qed.

Lemma exec_streams (procs : list Proc) (sched : list tid) (st st' : State) :
  exec procs sched st = Some st' ->
  map Stdin (cmds st') = map Stdin (cmds st) /\
  map Stdout (cmds st') = map Stdout (cmds st).
Proof.
  revert st. induction sched as [|t sched IH]; intros st H; cbn in H.
  - inversion H; subst. auto.
  - destruct (step procs t st) as [st1|] eqn:Hs; [|discriminate].
    apply step_Step in Hs as [HS _].
    destruct (Step_streams _ _ _ _ HS) as [E1 E2].
    destruct (IH st1 H) as [E3 E4].
    split; congruence.
Qed.

Lemma streams_lookup (cs cs' : list Cmd) (j : nat) (a : Cmd) :
  map Stdin cs' = map Stdin cs -> map Stdout cs' = map Stdout cs ->
  cs !! j = Some a ->
  exists a', cs' !! j = Some a' /\ Stdin a' = Stdin a /\ Stdout a' = Stdout a.
Proof.
  intros E1 E2 Ha.
  assert (H1 : (Stdin <$> cs') !! j = Some (Stdin a)).
  { change (map Stdin cs' !! j = Some (Stdin a)).
    rewrite E1. change ((Stdin <$> cs) !! j = Some (Stdin a)).
    rewrite list_lookup_fmap, Ha. reflexivity. }
  assert (H2 : (Stdout <$> cs') !! j = Some (Stdout a)).
  { change (map Stdout cs' !! j = Some (Stdout a)).
    rewrite E2. change ((Stdout <$> cs) !! j = Some (Stdout a)).
    rewrite list_lookup_fmap, Ha. reflexivity. }
  rewrite list_lookup_fmap in H1, H2.
  destruct (cs' !! j) as [a'|]; [|discriminate].
  inversion H1; inversion H2. eauto.
Qed.

Lemma wired_streams (cmdObjs : list CmdObj) (cs cs' : list Cmd) :
  map Stdin cs' = map Stdin cs -> map Stdout cs' = map Stdout cs ->
  wired cmdObjs cs -> wired cmdObjs cs'.
Proof.
  intros E1 E2 (Hc & Hf & Hl). split; [|split].
  - intros j Hj. destruct (Hc j Hj) as (k & a & b & Ha & Hb & Hout & Hin).
    destruct (streams_lookup _ _ _ _ E1 E2 Ha) as (a' & Ha' & _ & Ho').
    destruct (streams_lookup _ _ _ _ E1 E2 Hb) as (b' & Hb' & Hi' & _).
    exists k, a', b'. repeat split; congruence.
  - destruct Hf as (o & c & Ho & Hc0 & Hs).
    destruct (streams_lookup _ _ _ _ E1 E2 Hc0) as (c' & Hc' & Hi' & _).
    exists o, c'. repeat split; congruence.
  - destruct Hl as (o & c & Ho & Hc0 & Hs).
    destruct (streams_lookup _ _ _ _ E1 E2 Hc0) as (c' & Hc' & _ & Ho').
    exists o, c'. repeat split; congruence.
Qed.

(** The state the goroutines are launched in is wired. *)
Lemma wired_start (cmdObjs : list CmdObj) :
  1 <= length cmdObjs -> wiring_error cmdObjs = None ->
  wired cmdObjs (cmds (start_state cmdObjs)).
Proof.
  intros Hn Hw.
  destruct (start_state_fields cmdObjs) as (_ & _ & _ & Hcs & _).
  rewrite Hcs. unfold wiring_error, wire in *.
  destruct (wire_loop _ _ _ _ _) as [[cs next] err] eqn:Hloop.
  cbn in Hw. subst err. cbn [fst].
  apply wire_loop_spec in Hloop as [Hlen Hall].
  rewrite !length_map in *.
  assert (Hget : forall j, j < length cmdObjs ->
            exists o c, cmdObjs !! j = Some o /\ cs !! j = Some c /\
              (0 <= j < 0 + (length cmdObjs - 1) ->
                 Stdout c = Some (PipeW (0 + (j - 0)))) /\
              (~ (0 <= j < 0 + (length cmdObjs - 1)) ->
                 Stdout c = Stdout (GetCmd o)) /\
              (0 < j <= 0 + (length cmdObjs - 1) ->
                 Stdin c = Some (PipeR (0 + (j - 1 - 0)))) /\
              (~ (0 < j <= 0 + (length cmdObjs - 1)) ->
                 Stdin c = Stdin (GetCmd o))).
  { intros j Hj.
    destruct (lookup_lt_is_Some_2 cs j) as [c Hc]; [lia |].
    destruct (Hall j c Hc) as (c0 & Hc0 & _ & _ & Hs).
    change ((GetCmd <$> cmdObjs) !! j = Some c0) in Hc0.
    rewrite list_lookup_fmap in Hc0.
    destruct (cmdObjs !! j) as [o|] eqn:Ho; [|discriminate].
    inversion Hc0; subst c0.
    exists o, c. split; [reflexivity |]. split; [exact Hc |].
    apply Hs. reflexivity. }
  split; [|split].
  - intros j Hj.
    destruct (Hget j) as (o & a & _ & Ha & Hout & _); [lia |].
    destruct (Hget (j + 1)) as (o' & b & _ & Hb & _ & _ & Hin & _); [lia |].
    exists j, a, b. split; [exact Ha |]. split; [exact Hb |]. split.
    + rewrite Hout by lia. f_equal. f_equal. lia.
    + rewrite Hin by lia. f_equal. f_equal. lia.
  - destruct (Hget 0) as (o & c & Ho & Hc & _ & _ & _ & Hin); [lia |].
    exists o, c. split; [exact Ho |]. split; [exact Hc |]. apply Hin. lia.
  - destruct (Hget (length cmdObjs - 1)) as (o & c & Ho & Hc & _ & Hout & _);
      [lia |].
    exists o, c. split; [exact Ho |]. split; [exact Hc |]. apply Hout. lia.
Qed.

(** C6. In a pipeline of two or more commands no stage is started unless
    every [StdoutPipe] of the wiring succeeded; and then, from the state
    in which the goroutines are launched on, each stage's stdout is the
    write end of a pipe whose read end is the next stage's stdin, and the
    first stage's stdin and the last stage's stdout are as the caller's
    commands have them. *)
Theorem PipeCommands_wired_before_start (cmdObjs : list CmdObj)
    (sched : list tid) (st : State) :
  2 <= length cmdObjs ->
  PipeCommands cmdObjs sched = Some st ->
  (forall i, EvStart i ∈ events st -> wiring_error cmdObjs = None) /\
  (wiring_error cmdObjs = None ->
   wired cmdObjs (cmds (start_state cmdObjs)) /\ wired cmdObjs (cmds st)).
Proof.
  intros Hn H. split.
  - intros i Hi. destruct (wiring_error cmdObjs) as [e|] eqn:Hw; [|reflexivity].
    exfalso. destruct (PipeCommands_unwired _ _ _ _ Hw H) as [-> _].
    destruct (start_state_fields cmdObjs) as (_ & _ & _ & _ & Hev & _).
    rewrite Hev in Hi. unfold LogCommand in Hi.
    apply elem_of_cons in Hi as [Hi|Hi]; [discriminate |].
    apply list_elem_of_singleton in Hi. discriminate.
  - intros Hw.
    assert (Hs : wired cmdObjs (cmds (start_state cmdObjs)))
      by (apply wired_start; [lia | exact Hw]).
    split; [exact Hs |].
    destruct (exec_streams _ _ _ _ H) as [E1 E2].
    eapply wired_streams; eassumption.
Qed.

Lemma PipeCommands_wired_before_start_witness :
  wired [cmd_ls_missing; cmd_sort; cmd_head]
    (cmds (final_state [cmd_ls_missing; cmd_sort; cmd_head]
             (seq_sched [cmd_ls_missing; cmd_sort; cmd_head]))).
Proof.
  refine (proj2 (proj2 (PipeCommands_wired_before_start
            [cmd_ls_missing; cmd_sort; cmd_head]
            (seq_sched [cmd_ls_missing; cmd_sort; cmd_head])
            (final_state [cmd_ls_missing; cmd_sort; cmd_head]
               (seq_sched [cmd_ls_missing; cmd_sort; cmd_head])) _ _) _)).
  - cbn. lia.
  - vm_compute. reflexivity.
  - vm_compute. reflexivity.
Defined.

(** * Further properties *)

(** ** The pipeline: a run that was not wired *)

Lemma PipeCommands_unwired_sched (cmdObjs : list CmdObj) (sched : list tid)
    (st : State) (e : error) :
  wiring_error cmdObjs = Some e ->
  PipeCommands cmdObjs sched = Some st -> sched = [].
Proof.
  intros Hw H. destruct sched as [|t sched]; [reflexivity |]. exfalso.
  destruct (start_state_fields cmdObjs) as (Hgs & _ & _ & _ & _ & Hm).
  rewrite Hw in Hm. unfold PipeCommands in H. cbn in H.
  destruct (step (map proc cmdObjs) t (start_state cmdObjs)) as [st1|] eqn:Hs;
    [|discriminate].
  apply step_Step in Hs as [Hs _].
  destruct t as [|i].
  - inversion Hs; subst; congruence.
  - destruct (Step_G_gs _ _ _ _ Hs) as (g & g' & Hg & _ & _ & _ & Hgu & _).
    rewrite Hgs in Hg. apply lookup_replicate_unspawned in Hg. congruence.
Qed.

(** ** The pipeline: every stage is started once and waited for once *)

Lemma count_ev_app (f : event -> bool) (l1 l2 : list event) :
  count_ev f (l1 ++ l2) = count_ev f l1 + count_ev f l2.
Proof. unfold count_ev. rewrite List.filter_app, length_app. reflexivity. Qed.

Lemma count_ev_log_error_start (i : nat) (err : option error) :
  count_ev (is_start i) (log_error err) = 0.
Proof. destruct err; reflexivity. Qed.

Lemma count_ev_log_error_wait (i : nat) (err : option error) :
  count_ev (is_wait i) (log_error err) = 0.
Proof. destruct err; reflexivity. Qed.

Lemma count_ev_pos (f : event -> bool) (l : list event) :
  0 < count_ev f l -> exists k e, l !! k = Some e /\ f e = true.
Proof.
  unfold count_ev. induction l as [|x l IH]; cbn; [lia |].
  destruct (f x) eqn:E.
  - intros _. exists 0, x. auto.
  - intros H. destruct (IH H) as (k & e & Hk & He). exists (S k), e. auto.
Qed.

Lemma is_start_true (i : nat) (e : event) : is_start i e = true -> e = EvStart i.
Proof.
  destruct e; cbn; try discriminate. intros H. apply Nat.eqb_eq in H. congruence.
Qed.

Lemma g_of_insert (st st' : State) (j : nat) (g' : gstate) (i : nat) :
  gs st' = <[j := g']> (gs st) -> j < length (gs st) ->
  g_of st' i = if decide (i = j) then g' else g_of st i.
Proof.
  intros Hgs Hj. unfold g_of. rewrite Hgs.
  destruct (decide (i = j)) as [->|Hne].
  - rewrite list_lookup_insert_eq by exact Hj. reflexivity.
  - rewrite list_lookup_insert_ne by congruence. reflexivity.
Qed.

Lemma g_of_lookup (st : State) (j : nat) (g : gstate) :
  gs st !! j = Some g -> g_of st j = g.
Proof. unfold g_of. intros ->. reflexivity. Qed.

Lemma start_before_wait_app (evs more : list event) :
  start_before_wait evs ->
  (forall k i, more !! k = Some (EvWait i) ->
     exists k', evs !! k' = Some (EvStart i)) ->
  start_before_wait (evs ++ more).
Proof.
  intros Ho Hm k i Hk.
  apply lookup_app_Some in Hk as [Hk|[Hlen Hk]].
  - destruct (Ho k i Hk) as (k' & Hlt & Hk'). exists k'. split; [exact Hlt |].
    apply lookup_app_l_Some, Hk'.
  - destruct (Hm _ _ Hk) as (k' & Hk'). exists k'.
    pose proof (lookup_lt_Some _ _ _ Hk'). split; [lia |].
    apply lookup_app_l_Some, Hk'.
Qed.

(** A step that neither starts nor waits. *)
Lemma einv_quiet (st st' : State) (j : nat) (g g' : gstate) (more : list event) :
  einv st -> gs st !! j = Some g -> gs st' = <[j := g']> (gs st) ->
  events st' = events st ++ more ->
  started_g g' = started_g g -> waited_g g' = waited_g g ->
  (forall i, count_ev (is_start i) more = 0) ->
  (forall i, count_ev (is_wait i) more = 0) ->
  (forall k i, more !! k <> Some (EvWait i)) ->
  einv st'.
Proof.
  intros E Hg Hgs Hev Hs Hw Hcs Hcw Hnw.
  pose proof (lookup_lt_Some _ _ _ Hg) as Hj.
  constructor.
  - intros i. rewrite Hev, count_ev_app, Hcs, Nat.add_0_r, (einv_starts _ E).
    rewrite (g_of_insert st st' j g' i Hgs Hj).
    destruct (decide (i = j)) as [->|]; [|reflexivity].
    rewrite (g_of_lookup _ _ _ Hg), Hs. reflexivity.
  - intros i. rewrite Hev, count_ev_app, Hcw, Nat.add_0_r, (einv_waits _ E).
    rewrite (g_of_insert st st' j g' i Hgs Hj).
    destruct (decide (i = j)) as [->|]; [|reflexivity].
    rewrite (g_of_lookup _ _ _ Hg), Hw. reflexivity.
  - rewrite Hev. apply start_before_wait_app; [apply E |].
    intros k i Hk. exfalso. eapply Hnw, Hk.
Qed.

Lemma einv_same (st st' : State) :
  einv st -> gs st' = gs st -> events st' = events st -> einv st'.
Proof.
  intros E Hgs Hev. constructor.
  - intros i. rewrite Hev, (einv_starts _ E). unfold g_of. rewrite Hgs. reflexivity.
  - intros i. rewrite Hev, (einv_waits _ E). unfold g_of. rewrite Hgs. reflexivity.
  - rewrite Hev. apply E.
Qed.

Lemma log_error_no_wait (err : option error) (k i : nat) :
  log_error err !! k <> Some (EvWait i).
Proof. destruct err as [e|]; destruct k as [|[|k]]; cbn; congruence. Qed.

Ltac quiet_step :=
  eapply einv_quiet;
  [ eassumption | eassumption | reflexivity
  | st_simpl; first [ reflexivity | symmetry; apply app_nil_r ]
  | reflexivity | reflexivity
  | intros ?; reflexivity | intros ?; reflexivity
  | intros [|[|?]] ?; cbn; congruence ].

Lemma einv_Step (procs : list Proc) (t : tid) (st st' : State) :
  inv procs st -> einv st -> Step procs t st st' -> einv st'.
Proof.
  intros I E HS.
  inversion HS; subst; try quiet_step.
  - (* go *)
    destruct (inv_spawn _ _ I k H) as (Hk & Hge & Hlt).
    destruct (lookup_lt_is_Some_2 (gs st) k H0) as [g Hg].
    pose proof (Hge k g (le_n _) Hg); subst g. quiet_step.
  - apply (einv_same st); [exact E | reflexivity | reflexivity].
  - apply (einv_same st); [exact E | reflexivity | reflexivity].
  - (* Start *)
    pose proof (lookup_lt_Some _ _ _ H) as Hi.
    constructor; st_simpl.
    + intros j. pose proof (einv_starts _ E j) as Hs.
      rewrite count_ev_app, Hs.
      unfold count_ev at 1. cbn [List.filter is_start].
      unfold g_of in *. st_simpl.
      destruct (decide (j = i)) as [->|Hne].
      * rewrite list_lookup_insert_eq by exact Hi.
        rewrite Nat.eqb_refl, H. cbn [length default from_option id started_g].
        fold (count_ev (is_start i) (log_error (snd (Start c (start_err p))))).
        rewrite count_ev_log_error_start. reflexivity.
      * rewrite list_lookup_insert_ne by congruence.
        destruct (i =? j) eqn:Eq; [apply Nat.eqb_eq in Eq; congruence |].
        fold (count_ev (is_start j) (log_error (snd (Start c (start_err p))))).
        rewrite count_ev_log_error_start. lia.
    + intros j. pose proof (einv_waits _ E j) as Hs.
      rewrite count_ev_app, Hs.
      unfold count_ev at 1. cbn [List.filter is_wait].
      fold (count_ev (is_wait j) (log_error (snd (Start c (start_err p))))).
      rewrite count_ev_log_error_wait, Nat.add_0_r.
      unfold g_of in *. st_simpl.
      destruct (decide (j = i)) as [->|Hne].
      * rewrite list_lookup_insert_eq by exact Hi. rewrite H. reflexivity.
      * rewrite list_lookup_insert_ne by congruence. reflexivity.
    + apply start_before_wait_app; [apply E |].
      intros [|k] j Hk; cbn in Hk; [discriminate |].
      exfalso. eapply log_error_no_wait, Hk.
  - (* Wait *)
    pose proof (lookup_lt_Some _ _ _ H) as Hi.
    constructor; st_simpl.
    + intros j. pose proof (einv_starts _ E j) as Hs.
      rewrite count_ev_app, Hs.
      unfold count_ev at 1. cbn [List.filter is_start].
      fold (count_ev (is_start j) (log_error (Wait c (wait_err p)))).
      rewrite count_ev_log_error_start, Nat.add_0_r.
      unfold g_of in *. st_simpl.
      destruct (decide (j = i)) as [->|Hne].
      * rewrite list_lookup_insert_eq by exact Hi. rewrite H. reflexivity.
      * rewrite list_lookup_insert_ne by congruence. reflexivity.
    + intros j. pose proof (einv_waits _ E j) as Hs.
      rewrite count_ev_app, Hs.
      unfold count_ev at 1. cbn [List.filter is_wait].
      unfold g_of in *. st_simpl.
      destruct (decide (j = i)) as [->|Hne].
      * rewrite list_lookup_insert_eq by exact Hi.
        rewrite Nat.eqb_refl, H. cbn [length default from_option id waited_g].
        fold (count_ev (is_wait i) (log_error (Wait c (wait_err p)))).
        rewrite count_ev_log_error_wait. reflexivity.
      * rewrite list_lookup_insert_ne by congruence.
        destruct (i =? j) eqn:Eq; [apply Nat.eqb_eq in Eq; congruence |].
        fold (count_ev (is_wait j) (log_error (Wait c (wait_err p)))).
        rewrite count_ev_log_error_wait. lia.
    + apply start_before_wait_app; [apply E |].
      intros [|k] j Hk; cbn in Hk.
      * inversion Hk; subst j.
        pose proof (einv_starts _ E i) as Hs.
        rewrite (g_of_lookup _ _ _ H) in Hs. cbn in Hs.
        destruct (count_ev_pos (is_start i) (events st)) as (k' & e & Hk' & He);
          [lia |].
        apply is_start_true in He. subst e. eauto.
      * exfalso. eapply log_error_no_wait, Hk.
Qed.

Lemma einv_start_state (cmdObjs : list CmdObj) : einv (start_state cmdObjs).
Proof.
  destruct (start_state_fields cmdObjs) as (Hgs & _ & _ & _ & Hev & _).
  assert (Hg : forall i, g_of (start_state cmdObjs) i = GUnspawned).
  { intros i. unfold g_of. rewrite Hgs.
    destruct (replicate (length cmdObjs) GUnspawned !! i) as [g|] eqn:E;
      [|reflexivity].
    apply lookup_replicate_unspawned in E. subst. reflexivity. }
  constructor.
  - intros i. rewrite Hev, Hg. reflexivity.
  - intros i. rewrite Hev, Hg. reflexivity.
  - rewrite Hev. intros [|[|k]] i Hk; cbn in Hk; discriminate.
Qed.

Lemma einv_exec (procs : list Proc) (sched : list tid) (st st' : State) :
  inv procs st -> einv st -> exec procs sched st = Some st' -> einv st'.
Proof.
  revert st. induction sched as [|t sched IH]; intros st I E H; cbn in H.
  - inversion H; subst. exact E.
  - destruct (step procs t st) as [st1|] eqn:Hs; [|discriminate].
    apply step_Step in Hs as [HS _].
    apply (IH st1); [eapply inv_Step | eapply einv_Step | exact H]; eassumption.
Qed.

Lemma PipeCommands_einv (cmdObjs : list CmdObj) (sched : list tid) (st : State) :
  PipeCommands cmdObjs sched = Some st -> einv st.
Proof.
  intros H. destruct (wiring_error cmdObjs) as [e|] eqn:Hw.
  - destruct (PipeCommands_unwired _ _ _ _ Hw H) as [-> _].
    apply einv_start_state.
  - eapply einv_exec; [apply inv_start, Hw | apply einv_start_state | exact H].
Qed.

(** X3. In every run of [PipeCommands] no stage is started or waited for
    twice, no stage is waited for that was not started, and each [Wait]
    comes after the [Start] of its stage.  When a wired run returns, every
    stage has been started exactly once and waited for exactly once: the
    call does not return while a process it launched is not reaped. *)
Theorem PipeCommands_starts_and_waits (cmdObjs : list CmdObj) (sched : list tid)
    (st : State) :
  PipeCommands cmdObjs sched = Some st ->
  (forall i, count_ev (is_wait i) (events st)
             <= count_ev (is_start i) (events st) <= 1) /\
  start_before_wait (events st) /\
  (forall r, wiring_error cmdObjs = None -> returned st = Some r ->
   forall i, i < length cmdObjs ->
     count_ev (is_start i) (events st) = 1 /\
     count_ev (is_wait i) (events st) = 1).
Proof.
  intros H. pose proof (PipeCommands_einv _ _ _ H) as E.
  split; [|split].
  - intros i. rewrite (einv_starts _ E), (einv_waits _ E).
    destruct (g_of st i); cbn; lia.
  - apply E.
  - intros r Hw Hret i Hi. apply returned_main in Hret.
    pose proof (PipeCommands_inv _ _ _ Hw H) as I.
    destruct (inv_ret _ _ I r Hret) as [_ Hwg].
    destruct (lookup_lt_is_Some_2 (gs st) i) as [g Hg].
    { rewrite (inv_gs _ _ I), length_map. exact Hi. }
    assert (g = GExited) as ->.
    { eapply live_0; [|exact Hg]. rewrite <- (inv_wg _ _ I). exact Hwg. }
    rewrite (einv_starts _ E), (einv_waits _ E), (g_of_lookup _ _ _ Hg).
    split; reflexivity.
Qed.

Lemma PipeCommands_starts_and_waits_witness :
  count_ev (is_start 1) (events (final_state two_failing sched_overlap)) = 1 /\
  count_ev (is_wait 1) (events (final_state two_failing sched_overlap)) = 1.
Proof.
  refine (proj2 (proj2 (PipeCommands_starts_and_waits two_failing sched_overlap
            (final_state two_failing sched_overlap) _))
            (Some (errors_New "cat: /absent: No such file or directory")) _ _ 1 _).
  - vm_compute. reflexivity.
  - vm_compute. reflexivity.
  - vm_compute. reflexivity.
  - cbn. lia.
Defined.

(** ** The pipeline: one stage writing to stderr *)

Lemma appending_ge_one (l : list gstate) :
  1 <= appending l -> exists i g, l !! i = Some g /\ in_append g = true.
Proof.
  induction l as [|x l IH]; cbn [appending]; intros H; [lia |].
  destruct (in_append x) eqn:E.
  - exists 0, x. auto.
  - destruct IH as (i & g & Hi & Hg); [lia |]. exists (S i), g. auto.
Qed.

Lemma appending_ge_two (l : list gstate) :
  2 <= appending l ->
  exists i j g g', i <> j /\ l !! i = Some g /\ l !! j = Some g' /\
    in_append g = true /\ in_append g' = true.
Proof.
  induction l as [|x l IH]; cbn [appending]; intros H; [lia |].
  destruct (in_append x) eqn:E.
  - destruct (appending_ge_one l) as (j & g' & Hj & Hg'); [lia |].
    exists 0, (S j), x, g'. repeat split; auto.
  - destruct IH as (i & j & g & g' & Hne & Hi & Hj & Hg & Hg'); [lia |].
    exists (S i), (S j), g, g'. repeat split; auto.
Qed.

Lemma omap_block_one (procs : list Proc) (i : nat) (x : string) :
  procs !! i ≫= proc_block = Some x -> 1 <= length (omap proc_block procs).
Proof.
  intros H. apply proc_block_elem in H.
  destruct (omap proc_block procs); [inversion H | cbn; lia].
Qed.

Lemma omap_block_two (procs : list Proc) (i j : nat) (x y : string) :
  i <> j ->
  procs !! i ≫= proc_block = Some x -> procs !! j ≫= proc_block = Some y ->
  2 <= length (omap proc_block procs).
Proof.
  revert i j. induction procs as [|p procs IH]; intros [|i] [|j] Hne Hi Hj;
    try discriminate; try congruence; cbn in Hi, Hj.
  - cbn. rewrite Hi. cbn [length].
    pose proof (omap_block_one procs j y Hj). lia.
  - cbn. rewrite Hj. cbn [length].
    pose proof (omap_block_one procs i x Hi). lia.
  - assert (2 <= length (omap proc_block procs)) by (eapply (IH i j); eauto).
    cbn. destruct (proc_block p); cbn [length]; lia.
Qed.

Lemma in_append_GStore (g : gstate) :
  in_append g = true -> exists old b, g = GStore old b.
Proof. destruct g; try discriminate. eauto. Qed.

(** With at most one stage that writes to stderr no two goroutines are
    inside the append at once. *)
Lemma exclusive_one_block (procs : list Proc) (st : State) :
  inv procs st -> length (omap proc_block procs) <= 1 -> exclusive st = true.
Proof.
  intros I Hone. unfold exclusive. apply Nat.leb_le.
  destruct (le_lt_dec (appending (gs st)) 1) as [Hle|Hgt]; [exact Hle |].
  exfalso.
  destruct (appending_ge_two (gs st)) as (i & j & g & g' & Hne & Hi & Hj & Hg & Hg');
    [lia |].
  apply in_append_GStore in Hg as (o1 & b1 & ->).
  apply in_append_GStore in Hg' as (o2 & b2 & ->).
  destruct (inv_store _ _ I _ _ _ Hi) as [_ H1].
  destruct (inv_store _ _ I _ _ _ Hj) as [_ H2].
  pose proof (omap_block_two procs i j b1 b2 Hne H1 H2). lia.
Qed.

Lemma run_states_exclusive (procs : list Proc) (sched : list tid) (st : State) :
  inv procs st -> length (omap proc_block procs) <= 1 ->
  forallb exclusive (run_states procs sched st) = true.
Proof.
  revert st. induction sched as [|t sched IH]; intros st I Hone;
    cbn [run_states forallb].
  - rewrite (exclusive_one_block _ _ I Hone). reflexivity.
  - rewrite (exclusive_one_block _ _ I Hone). cbn [andb].
    destruct (step procs t st) as [st1|] eqn:Hs; [|reflexivity].
    apply step_Step in Hs as [HS _].
    apply IH; [eapply inv_Step; eassumption | exact Hone].
Qed.

(** X4. When exactly one stage of a wired pipeline writes to stderr, the
    appends cannot overlap, and under every schedule the call returns
    that stage's stderr, verbatim and alone, as its error. *)
Theorem PipeCommands_single_writer (cmdObjs : list CmdObj) (sched : list tid)
    (st : State) (r : option error) (b : string) :
  wiring_error cmdObjs = None ->
  stderr_blocks cmdObjs = [b] ->
  PipeCommands cmdObjs sched = Some st -> returned st = Some r ->
  appends_serialized cmdObjs sched = true /\ r = Some (errors_New b).
Proof.
  intros Hw Hb H Hret. apply returned_main in Hret.
  pose proof (PipeCommands_inv _ _ _ Hw H) as I.
  assert (Hx : appends_serialized cmdObjs sched = true).
  { unfold appends_serialized. apply run_states_exclusive; [apply inv_start, Hw |].
    change (omap proc_block (map proc cmdObjs)) with (stderr_blocks cmdObjs).
    rewrite Hb. cbn. lia. }
  split; [exact Hx |].
  pose proof (sinv_exec _ _ _ _ (inv_start _ Hw) (sinv_start _) Hx H) as S.
  destruct (returned_landed _ _ _ I Hret) as [-> Hl].
  pose proof (sinv_fe _ _ S) as HP. rewrite Hl, Hb in HP.
  apply Permutation_singleton_r in HP. rewrite HP. reflexivity.
Qed.

Lemma PipeCommands_single_writer_witness :
  appends_serialized [cmd_ls_missing; cmd_sort; cmd_head]
    (seq_sched [cmd_ls_missing; cmd_sort; cmd_head]) = true /\
  Some (errors_New "ls: /missing: No such file or directory")
  = Some (errors_New "ls: /missing: No such file or directory").
Proof.
  apply (PipeCommands_single_writer [cmd_ls_missing; cmd_sort; cmd_head]
           (seq_sched [cmd_ls_missing; cmd_sort; cmd_head])
           (final_state [cmd_ls_missing; cmd_sort; cmd_head]
              (seq_sched [cmd_ls_missing; cmd_sort; cmd_head]))).
  - vm_compute. reflexivity.
  - vm_compute. reflexivity.
  - vm_compute. reflexivity.
  - vm_compute. reflexivity.
Defined.

(** ** The pipeline: a stage whose [Stderr] is set already *)

Lemma Step_G_cmds (procs : list Proc) (j : nat) (st st' : State) (i : nat) :
  Step procs (G j) st st' -> i <> j -> cmds st' !! i = cmds st !! i.
Proof.
  intros HS Hne. inversion HS; subst; st_simpl; try reflexivity;
    apply list_lookup_insert_ne; congruence.
Qed.

Lemma Step_Main_cmds (procs : list Proc) (st st' : State) :
  Step procs Main st st' -> cmds st' = cmds st.
Proof. intros HS. inversion HS; subst; reflexivity. Qed.

Lemma StderrPipe_preset (c : Cmd) (fault : option error) (k : nat) :
  is_Some (Stderr c) -> StderrPipe c fault k = Err (ErrOther "exec: Stderr already set").
Proof. intros [h Hh]. unfold StderrPipe. rewrite Hh. reflexivity. Qed.

Lemma doomed_Step (procs : list Proc) (t : tid) (st st' : State) (i : nat) (g : gstate) :
  inv procs st -> Step procs t st st' ->
  gs st !! i = Some g -> doomed (cmds st !! i) g ->
  exists g', gs st' !! i = Some g' /\ doomed (cmds st' !! i) g'.
Proof.
  intros I HS Hg Hd. destruct t as [|j].
  - rewrite (Step_Main_cmds _ _ _ HS).
    inversion HS; subst; st_simpl; eauto.
    destruct (decide (i = k)) as [->|Hne].
    + destruct (inv_spawn _ _ I k H) as (_ & Hge & _).
      pose proof (Hge k g (le_n _) Hg); subst g.
      rewrite list_lookup_insert_eq by assumption. eauto.
    + rewrite list_lookup_insert_ne by congruence. eauto.
  - destruct (decide (i = j)) as [->|Hne].
    + inversion HS; subst; st_simpl;
        match goal with
        | Hg' : gs st !! j = Some _ |- _ =>
            rewrite Hg' in Hg; inversion Hg; subst g
        end;
        cbn [doomed] in Hd; try contradiction;
        rewrite list_lookup_insert_eq by (eapply lookup_lt_Some; eassumption);
        try (eexists; split; [reflexivity | exact Logic.I]).
      * exfalso.
        destruct Hd as (c0 & Hc0 & Hs).
        match goal with
        | Hc : cmds st !! j = Some ?c, Hp : StderrPipe ?c _ _ = Ok _ |- _ =>
            rewrite Hc in Hc0; inversion Hc0; subst c0;
            rewrite StderrPipe_preset in Hp by exact Hs; discriminate
        end.
      * destruct stderr as [h|]; [contradiction |].
        eexists; split; [reflexivity | exact Logic.I].
    + rewrite (Step_G_cmds _ _ _ _ i HS Hne).
      destruct (Step_G_gs _ _ _ _ HS) as (g0 & g' & _ & Hgs & _).
      rewrite Hgs, list_lookup_insert_ne by congruence. eauto.
Qed.

Lemma doomed_exec (procs : list Proc) (sched : list tid) (st st' : State)
    (i : nat) (g : gstate) :
  inv procs st -> exec procs sched st = Some st' ->
  gs st !! i = Some g -> doomed (cmds st !! i) g ->
  exists g', gs st' !! i = Some g' /\ doomed (cmds st' !! i) g'.
Proof.
  revert st g. induction sched as [|t sched IH]; intros st g I H Hg Hd; cbn in H.
  - inversion H; subst. eauto.
  - destruct (step procs t st) as [st1|] eqn:Hs; [|discriminate].
    apply step_Step in Hs as [HS _].
    destruct (doomed_Step _ _ _ _ _ _ I HS Hg Hd) as (g1 & Hg1 & Hd1).
    eapply (IH st1); [eapply inv_Step | | |]; eassumption.
Qed.

(** X5. When the caller has set [Stderr] on a stage of a wired pipeline,
    [cmd.StderrPipe()] fails in that stage's goroutine, the reader is nil,
    and the goroutine never gets to [wg.Done()]: no run of [PipeCommands]
    returns. *)
Theorem PipeCommands_stderr_preset_never_returns (cmdObjs : list CmdObj)
    (sched : list tid) (st : State) (i : nat) (o : CmdObj) :
  wiring_error cmdObjs = None ->
  cmdObjs !! i = Some o -> is_Some (Stderr (GetCmd o)) ->
  PipeCommands cmdObjs sched = Some st ->
  returned st = None.
Proof.
  intros Hw Ho Hs H.
  destruct (returned st) as [r|] eqn:Hret; [exfalso | reflexivity].
  apply returned_main in Hret.
  pose proof (PipeCommands_inv _ _ _ Hw H) as I.
  destruct (start_state_fields cmdObjs) as (Hgs & _ & _ & Hcs & _).
  pose proof (lookup_lt_Some _ _ _ Ho) as Hi.
  destruct (doomed_exec _ _ _ _ i GUnspawned (inv_start _ Hw) H) as (g & Hg & Hd).
  - rewrite Hgs. apply lookup_replicate_2, Hi.
  - cbn [doomed].
    destruct (lookup_lt_is_Some_2 (cmds (start_state cmdObjs)) i) as [c Hc].
    { rewrite start_state_cmds_length. exact Hi. }
    exists c. split; [exact Hc |].
    rewrite Hcs in Hc. unfold wire in Hc.
    destruct (wire_loop _ _ _ _ _) as [[cs next] err] eqn:Hloop.
    apply wire_loop_spec in Hloop as [_ Hall]. cbn in Hc.
    destruct (Hall i c Hc) as (c0 & Hc0 & -> & _).
    change ((GetCmd <$> cmdObjs) !! i = Some c0) in Hc0.
    rewrite list_lookup_fmap, Ho in Hc0. inversion Hc0; subst. exact Hs.
  - destruct (inv_ret _ _ I r Hret) as [_ Hwg].
    assert (g = GExited) as ->.
    { eapply live_0; [|exact Hg]. rewrite <- (inv_wg _ _ I). exact Hwg. }
    exact Hd.
Qed.

Lemma PipeCommands_stderr_preset_never_returns_witness :
  returned (final_state [cmd_with_stderr] sched_panic) = None.
Proof.
  apply (PipeCommands_stderr_preset_never_returns [cmd_with_stderr] sched_panic
           (final_state [cmd_with_stderr] sched_panic) 0 cmd_with_stderr).
  - vm_compute. reflexivity.
  - reflexivity.
  - cbn. eauto.
  - vm_compute. reflexivity.
Defined.

(** ** The pipeline: when the wiring fails *)

Lemma StdoutPipe_error_any (c : Cmd) (p : Proc) (k : nat) :
  match stdout_error c p with
  | Some e => StdoutPipe c (stdout_pipe_fault p) k = Err e
  | None => StdoutPipe c (stdout_pipe_fault p) k
            = Ok (set_Stdout (PipeW k) c, PipeR k)
  end.
Proof.
  unfold stdout_error, StdoutPipe.
  destruct (Stdout c); [reflexivity |].
  destruct (Process c); [reflexivity |].
  destruct (stdout_pipe_fault p); reflexivity.
Qed.

Lemma stdout_error_set_Stdin (h : handle) (c : Cmd) (p : Proc) :
  stdout_error (set_Stdin h c) p = stdout_error c p.
Proof.
  unfold stdout_error, StdoutPipe. cbn [set_Stdin Stdout Process].
  destruct (Stdout c); [reflexivity |].
  destruct (Process c); [reflexivity |].
  destruct (stdout_pipe_fault p); reflexivity.
Qed.

(** The loop returns the error of the first stage it goes over whose
    [StdoutPipe] fails, and none when there is no such stage. *)
Lemma wire_loop_first_error (procs : list Proc) (iters : nat) :
  forall (i : nat) (cs : list Cmd) (next : nat),
  (forall j, i <= j < i + iters ->
     exists c p, cs !! j = Some c /\ procs !! j = Some p) ->
  (forall k e c p, i <= k < i + iters ->
     cs !! k = Some c -> procs !! k = Some p -> stdout_error c p = Some e ->
     (forall j c' p', i <= j < k -> cs !! j = Some c' -> procs !! j = Some p' ->
        stdout_error c' p' = None) ->
     snd (wire_loop procs iters i cs next) = Some e) /\
  ((forall j c p, i <= j < i + iters -> cs !! j = Some c -> procs !! j = Some p ->
      stdout_error c p = None) ->
   snd (wire_loop procs iters i cs next) = None).
Proof.
  induction iters as [|iters IH]; intros i cs next Hex.
  - split; [intros; lia | reflexivity].
  - destruct (Hex i) as (c & p & Hc & Hp); [lia |].
    cbn [wire_loop]. rewrite Hc, Hp.
    pose proof (StdoutPipe_error_any c p next) as HS.
    assert (Hex' : forall j, i + 1 <= j < i + 1 + iters ->
              exists c0 p0,
                alter (set_Stdin (PipeR next)) (i + 1)
                  (<[i:=set_Stdout (PipeW next) c]> cs) !! j = Some c0 /\
                procs !! j = Some p0 /\
                exists c1, cs !! j = Some c1 /\
                  stdout_error c0 p0 = stdout_error c1 p0).
    { intros j Hj. destruct (Hex j) as (c1 & p1 & Hc1 & Hp1); [lia |].
      destruct (decide (j = i + 1)) as [->|Hne].
      - rewrite list_lookup_alter_eq, list_lookup_insert_ne, Hc1 by lia.
        cbn. exists (set_Stdin (PipeR next) c1), p1.
        split; [reflexivity |]. split; [exact Hp1 |].
        exists c1. split; [reflexivity | apply stdout_error_set_Stdin].
      - rewrite list_lookup_alter_ne, list_lookup_insert_ne, Hc1 by lia.
        eauto 10. }
    destruct (IH (i + 1)
                (alter (set_Stdin (PipeR next)) (i + 1)
                   (<[i:=set_Stdout (PipeW next) c]> cs)) (next + 1))
      as [IHe IHn].
    { intros j Hj. destruct (Hex' j Hj) as (c0 & p0 & H0 & H1 & _). eauto. }
    split.
    + intros k e ck pk Hk Hck Hpk He Hbefore.
      destruct (decide (k = i)) as [->|Hne].
      * rewrite Hc in Hck. rewrite Hp in Hpk. inversion Hck; inversion Hpk; subst.
        rewrite He in HS. rewrite HS. reflexivity.
      * rewrite (Hbefore i c p) in HS by (auto; lia). rewrite HS.
        destruct (Hex' k) as (c0 & p0 & H0 & H1 & c1 & H2 & H3); [lia |].
        rewrite Hck in H2. rewrite Hpk in H1. inversion H2; inversion H1; subst.
        apply (IHe k e c0 p0); [lia | exact H0 | exact Hpk | congruence |].
        intros j c' p' Hj Hc' Hp'.
        destruct (Hex' j) as (c0' & p0' & H0' & H1' & c1' & H2' & H3'); [lia |].
        rewrite H0' in Hc'. rewrite H1' in Hp'. inversion Hc'; inversion Hp'; subst.
        rewrite H3'. apply (Hbefore j c1' p'); [lia | exact H2' | exact H1'].
    + intros Hall. rewrite (Hall i c p) in HS by (auto; lia). rewrite HS.
      apply IHn. intros j c' p' Hj Hc' Hp'.
      destruct (Hex' j) as (c0' & p0' & H0' & H1' & c1' & H2' & H3'); [lia |].
      rewrite H0' in Hc'. rewrite H1' in Hp'. inversion Hc'; inversion Hp'; subst.
      rewrite H3'. apply (Hall j c1' p'); [lia | exact H2' | exact H1'].
Qed.

Lemma lookup_cmdObjs (cmdObjs : list CmdObj) (j : nat) (c : Cmd) (p : Proc) :
  map GetCmd cmdObjs !! j = Some c -> map proc cmdObjs !! j = Some p ->
  exists o, cmdObjs !! j = Some o /\ c = GetCmd o /\ p = proc o.
Proof.
  intros Hc Hp.
  change ((GetCmd <$> cmdObjs) !! j = Some c) in Hc.
  change ((proc <$> cmdObjs) !! j = Some p) in Hp.
  rewrite list_lookup_fmap in Hc. rewrite list_lookup_fmap in Hp.
  destruct (cmdObjs !! j) as [o|]; [|discriminate].
  inversion Hc; inversion Hp. eauto.
Qed.

Lemma wire_lookups (cmdObjs : list CmdObj) (j : nat) :
  0 <= j < 0 + (length (map GetCmd cmdObjs) - 1) ->
  exists c p, map GetCmd cmdObjs !! j = Some c /\ map proc cmdObjs !! j = Some p.
Proof.
  rewrite length_map. intros Hj.
  destruct (lookup_lt_is_Some_2 cmdObjs j) as [o Ho]; [lia |].
  exists (GetCmd o), (proc o).
  change ((GetCmd <$> cmdObjs) !! j = Some (GetCmd o) /\
          (proc <$> cmdObjs) !! j = Some (proc o)).
  rewrite !list_lookup_fmap, Ho. auto.
Qed.

(** X6. The wiring succeeds whenever [StdoutPipe] can succeed on every
    stage but the last: no [Stdout] set, not started, pipe available.  The
    last stage is not asked for a pipe, so that a [Stdout] the caller set
    on it is accepted. *)
Theorem PipeCommands_wiring_succeeds (cmdObjs : list CmdObj) :
  (forall j o, j + 1 < length cmdObjs -> cmdObjs !! j = Some o ->
     stdout_error (GetCmd o) (proc o) = None) ->
  wiring_error cmdObjs = None.
Proof.
  intros Hall. unfold wiring_error, wire.
  apply (wire_loop_first_error (map proc cmdObjs) _ 0 _ 0 (wire_lookups cmdObjs)).
  intros j c p Hj Hc Hp. rewrite length_map in Hj.
  destruct (lookup_cmdObjs _ _ _ _ Hc Hp) as (o & Ho & -> & ->).
  apply (Hall j o); [lia | exact Ho].
Qed.

Lemma PipeCommands_wiring_succeeds_witness :
  wiring_error [cmd_sort; cmd_with_stdout] = None.
Proof.
  apply PipeCommands_wiring_succeeds.
  intros [|[|j]] o Hj Ho; cbn in Hj, Ho; try lia.
  inversion Ho; subst. reflexivity.
Defined.

(** X7. When [StdoutPipe] fails on a stage other than the last, and on
    none before it, [PipeCommands] returns that stage's error at once:
    the command has been logged, no goroutine is launched and no process
    is started. *)
Theorem PipeCommands_wiring_fails (cmdObjs : list CmdObj) (k : nat) (o : CmdObj)
    (e : error) (sched : list tid) (st : State) :
  k + 1 < length cmdObjs -> cmdObjs !! k = Some o ->
  stdout_error (GetCmd o) (proc o) = Some e ->
  (forall j o', j < k -> cmdObjs !! j = Some o' ->
     stdout_error (GetCmd o') (proc o') = None) ->
  PipeCommands cmdObjs sched = Some st ->
  sched = [] /\ returned st = Some (Some e) /\
  events st = LogCommand (Join (map ToString cmdObjs) " | ") true /\
  (forall i, count_ev (is_start i) (events st) = 0).
Proof.
  intros Hk Ho He Hbefore H.
  assert (Hw : wiring_error cmdObjs = Some e).
  { unfold wiring_error, wire.
    apply (proj1 (wire_loop_first_error (map proc cmdObjs) _ 0 _ 0
                    (wire_lookups cmdObjs)) k e (GetCmd o) (proc o)).
    - rewrite length_map. lia.
    - change ((GetCmd <$> cmdObjs) !! k = Some (GetCmd o)).
      rewrite list_lookup_fmap, Ho. reflexivity.
    - change ((proc <$> cmdObjs) !! k = Some (proc o)).
      rewrite list_lookup_fmap, Ho. reflexivity.
    - exact He.
    - intros j c' p' Hj Hc' Hp'.
      destruct (lookup_cmdObjs _ _ _ _ Hc' Hp') as (o' & Ho' & -> & ->).
      apply (Hbefore j o'); [lia | exact Ho']. }
  destruct (PipeCommands_unwired _ _ _ _ Hw H) as [-> Hm].
  destruct (start_state_fields cmdObjs) as (_ & _ & _ & _ & Hev & _).
  split; [eapply PipeCommands_unwired_sched; eassumption |].
  split; [unfold returned; rewrite Hm; reflexivity |].
  split; [exact Hev |].
  intros i. rewrite Hev. reflexivity.
Qed.

Lemma PipeCommands_wiring_fails_witness :
  @nil tid = [] /\
  returned (final_state [cmd_with_stdout; cmd_sort] [])
    = Some (Some (ErrOther "exec: Stdout already set")) /\
  events (final_state [cmd_with_stdout; cmd_sort] [])
    = LogCommand "git log | sort" true /\
  (forall i, count_ev (is_start i)
               (events (final_state [cmd_with_stdout; cmd_sort] [])) = 0).
Proof.
  apply (PipeCommands_wiring_fails [cmd_with_stdout; cmd_sort] 0 cmd_with_stdout).
  - cbn. lia.
  - reflexivity.
  - reflexivity.
  - intros j o' Hj. lia.
  - vm_compute. reflexivity.
Defined.

(** ** AppendLineToFile: what it never does, and how appends compose *)

Lemma WriteString_written (fs : FS) fault (filename data : string) :
  exists written,
    fst (WriteString fs fault filename data)
    = <[filename := default EmptyString (fs !! filename) +:+ written]> fs /\
    (snd (WriteString fs fault filename data) = None -> written = data).
Proof.
  unfold WriteString. destruct fault as [[n e]|]; cbn.
  - eexists. split; [reflexivity | discriminate].
  - eexists. split; [reflexivity | reflexivity].
Qed.

Lemma get_last (s : string) :
  s <> EmptyString -> exists b, String.get (String.length s - 1) s = Some b.
Proof.
  induction s as [|c s IH]; [congruence |]. intros _.
  destruct s as [|d s'].
  - exists c. reflexivity.
  - destruct IH as [b Hb]; [discriminate |]. exists b.
    cbn [String.length] in *.
    replace (S (S (String.length s')) - 1) with (S (String.length s')) by lia.
    replace (S (String.length s') - 1) with (String.length s') in Hb by lia.
    destruct (String.length s'); exact Hb.
Qed.

Lemma last_byte_append_newline (s : string) :
  last_byte (s +:+ newline) = Some LF.
Proof.
  unfold last_byte. induction s as [|c s IH]; [reflexivity |].
  rewrite append_cons. cbn [String.length].
  destruct (s +:+ newline) as [|d s'] eqn:E.
  - destruct s; discriminate.
  - cbn [String.length] in *.
    replace (S (S (String.length s')) - 1) with (S (String.length s')) by lia.
    replace (S (String.length s') - 1) with (String.length s') in IH by lia.
    destruct (String.length s'); exact IH.
Qed.

Section AppendProperties.

Variable ResolvePlaceholderString : string -> list (string * string) -> string.
Variable AppendingLineToFile_tmpl : string.

(** X8. Whatever fails, [AppendLineToFile] only ever adds to the end of
    the file: what the file held before is a prefix of what it holds
    after, a file that was there is still there, no other file is touched,
    and the one log record is made before anything else. *)
Theorem AppendLineToFile_only_appends (fs : FS) (io : IOFaults)
    (filename line : string) :
  let '(fs', evs, err) :=
    AppendLineToFile ResolvePlaceholderString AppendingLineToFile_tmpl
      fs io filename line in
  (forall other, other <> filename -> fs' !! other = fs !! other) /\
  (exists suffix,
     default EmptyString (fs' !! filename)
     = default EmptyString (fs !! filename) +:+ suffix) /\
  (is_Some (fs !! filename) -> is_Some (fs' !! filename)) /\
  evs = LogCommand (ResolvePlaceholderString AppendingLineToFile_tmpl
                      [("line", line); ("filename", filename)]) false.
Proof.
  unfold AppendLineToFile, OpenFile_append, Stat, write_separator, ReadAt1.
  destruct (open_fault io).
  { repeat split; auto. exists EmptyString. symmetry. apply append_empty_r. }
  set (fs1 := match fs !! filename with
              | Some _ => fs
              | None => <[filename:=EmptyString]> fs
              end).
  assert (H1 : forall other, other <> filename -> fs1 !! other = fs !! other).
  { intros other Hne. subst fs1. destruct (fs !! filename); [reflexivity |].
    apply lookup_insert_ne. congruence. }
  assert (H2 : fs1 !! filename = Some (default EmptyString (fs !! filename))).
  { subst fs1. destruct (fs !! filename) eqn:E; [exact E |].
    apply lookup_insert_eq. }
  assert (Hfs1 : match fs !! filename with
                 | Some _ => Ok fs
                 | None => Ok (<[filename:=EmptyString]> fs)
                 end = Ok fs1)
    by (subst fs1; destruct (fs !! filename); reflexivity).
  rewrite Hfs1. clearbody fs1. clear Hfs1.
  set (orig := default EmptyString (fs !! filename)) in *.
  assert (Hkeep : (forall other, other <> filename -> fs1 !! other = fs !! other) /\
                  (exists suffix, default EmptyString (fs1 !! filename)
                                  = orig +:+ suffix) /\
                  (is_Some (fs !! filename) -> is_Some (fs1 !! filename))).
  { split; [exact H1 |]. split; [|rewrite H2; eauto].
    exists EmptyString. rewrite H2. symmetry. apply append_empty_r. }
  destruct (stat_fault io); [tauto |].
  rewrite H2.
  assert (Hline : forall fs2 c2,
            fs2 !! filename = Some (orig +:+ c2) ->
            (forall other, other <> filename -> fs2 !! other = fs !! other) ->
            let '(fs3, err) :=
              WriteString fs2 (line_write_fault io) filename (line +:+ newline) in
            (forall other, other <> filename -> fs3 !! other = fs !! other) /\
            (exists suffix, default EmptyString (fs3 !! filename)
                            = orig +:+ suffix) /\
            (is_Some (fs !! filename) -> is_Some (fs3 !! filename))).
  { intros fs2 c2 Hc2 Ho2.
    destruct (WriteString_written fs2 (line_write_fault io) filename
                (line +:+ newline)) as (w & Hw & _).
    destruct (WriteString fs2 (line_write_fault io) filename (line +:+ newline))
      as [fs3 err]. cbn [fst] in Hw. subst fs3.
    rewrite Hc2. cbn [default from_option id].
    split; [|split].
    - intros other Hne. rewrite lookup_insert_ne by congruence. auto.
    - rewrite lookup_insert_eq. cbn [default from_option id].
      exists (c2 +:+ w). apply append_assoc.
    - intros _. rewrite lookup_insert_eq. eauto. }
  assert (Hline0 := Hline fs1 EmptyString).
  rewrite append_empty_r in Hline0. specialize (Hline0 H2 H1).
  destruct (0 <? String.length orig).
  - destruct (readat_fault io); [tauto |].
    cbn [default from_option id].
    destruct (String.get (String.length orig - 1) orig) as [b|]; [|tauto].
    destruct (negb (Ascii.eqb LF b)).
    + destruct (WriteString_written fs1 (sep_write_fault io) filename newline)
        as (w & Hw & _).
      destruct (WriteString fs1 (sep_write_fault io) filename newline)
        as [fs2 [e|]]; cbn [fst] in Hw; subst fs2.
      * rewrite H2. cbn [default from_option id].
        split; [|split; [|split; [|reflexivity]]].
        -- intros other Hne. rewrite lookup_insert_ne by congruence. auto.
        -- rewrite lookup_insert_eq. cbn [default from_option id]. eauto.
        -- intros _. rewrite lookup_insert_eq. eauto.
      * rewrite H2 in *. cbn [default from_option id] in *.
        specialize (Hline (<[filename:=orig +:+ w]> fs1) w
                      (lookup_insert_eq _ _ _)).
        destruct (WriteString _ (line_write_fault io) filename (line +:+ newline))
          as [fs3 err].
        destruct Hline as (A & B & C).
        { intros other Hne. rewrite lookup_insert_ne by congruence. auto. }
        auto.
    + destruct (WriteString fs1 (line_write_fault io) filename (line +:+ newline))
        as [fs3 err]. destruct Hline0 as (A & B & C). auto.
  - destruct (WriteString fs1 (line_write_fault io) filename (line +:+ newline))
      as [fs3 err]. destruct Hline0 as (A & B & C). auto.
Qed.

End AppendProperties.

Lemma last_byte_empty_iff (s : string) :
  last_byte s = None <-> s = EmptyString.
Proof.
  split; [|intros ->; reflexivity].
  intros H. destruct s as [|c s]; [reflexivity |].
  destruct (get_last (String c s)) as [b Hb]; [discriminate |].
  unfold last_byte in H. congruence.
Qed.

Section AppendCompose.

Variable ResolvePlaceholderString : string -> list (string * string) -> string.
Variable AppendingLineToFile_tmpl : string.

(** The contents after a successful append. *)
Lemma AppendLineToFile_success (fs fs' : FS) (io : IOFaults)
    (filename line : string) (evs : list event) :
  AppendLineToFile ResolvePlaceholderString AppendingLineToFile_tmpl
    fs io filename line = (fs', evs, None) ->
  let original := default EmptyString (fs !! filename) in
  fs' !! filename
  = Some (original +:+ separator_for original +:+ line +:+ newline).
Proof.
  intros H original.
  unfold AppendLineToFile, OpenFile_append in H.
  destruct (open_fault io); [discriminate |].
  set (fs1 := match fs !! filename with
              | Some _ => fs
              | None => <[filename:=EmptyString]> fs
              end) in *.
  assert (H2 : fs1 !! filename = Some original).
  { subst fs1 original. destruct (fs !! filename) eqn:E; [exact E |].
    apply lookup_insert_eq. }
  assert (Hfs1 : match fs !! filename with
                 | Some _ => Ok fs
                 | None => Ok (<[filename:=EmptyString]> fs)
                 end = Ok fs1)
    by (subst fs1; destruct (fs !! filename); reflexivity).
  rewrite Hfs1 in H. clearbody fs1. clear Hfs1.
  unfold Stat in H. destruct (stat_fault io); [discriminate |].
  rewrite H2 in H. unfold write_separator, ReadAt1, separator_for, last_byte in *.
  destruct (0 <? String.length original) eqn:Hsz.
  - destruct (readat_fault io); [discriminate |].
    rewrite H2 in H. cbn [default from_option id] in H.
    destruct (String.get (String.length original - 1) original) as [b|];
      [|discriminate].
    destruct (Ascii.eqb LF b); cbn [negb] in H.
    + destruct (WriteString fs1 (line_write_fault io) filename (line +:+ newline))
        as [fs3 [e|]] eqn:Hw; [discriminate |].
      inversion H; subst fs3 evs. apply WriteString_ok in Hw as [_ ->].
      rewrite lookup_WriteString, H2. reflexivity.
    + destruct (WriteString fs1 (sep_write_fault io) filename newline)
        as [fs2 [e|]] eqn:Hw1; [discriminate |].
      apply WriteString_ok in Hw1 as [_ ->].
      destruct (WriteString _ (line_write_fault io) filename (line +:+ newline))
        as [fs3 [e|]] eqn:Hw2; [discriminate |].
      inversion H; subst fs3 evs. apply WriteString_ok in Hw2 as [_ ->].
      rewrite !lookup_WriteString, H2. cbn [default from_option id].
      rewrite append_assoc. reflexivity.
  - apply Nat.ltb_ge in Hsz.
    assert (original = EmptyString) as Ho by (apply string_length_0; lia).
    rewrite Ho in *.
    destruct (WriteString fs1 (line_write_fault io) filename (line +:+ newline))
      as [fs3 [e|]] eqn:Hw; [discriminate |].
    inversion H; subst fs3 evs. apply WriteString_ok in Hw as [_ ->].
    rewrite lookup_WriteString, H2. reflexivity.
Qed.

(** X9. When no file operation fails, [AppendLineToFile] succeeds, on a
    file that is there and on one that is not; the file then ends in the
    line and a newline. *)
Theorem AppendLineToFile_succeeds (fs : FS) (filename line : string) :
  let '(fs', evs, err) :=
    AppendLineToFile ResolvePlaceholderString AppendingLineToFile_tmpl
      fs no_faults filename line in
  err = None /\
  exists before, fs' !! filename = Some (before +:+ line +:+ newline).
Proof.
  destruct (AppendLineToFile ResolvePlaceholderString AppendingLineToFile_tmpl
              fs no_faults filename line) as [[fs' evs] err] eqn:E.
  assert (Herr : err = None).
  { unfold AppendLineToFile, OpenFile_append, Stat, write_separator, ReadAt1,
      WriteString, no_faults in E. cbn [open_fault stat_fault readat_fault
      sep_write_fault line_write_fault] in E.
    set (fs1 := match fs !! filename with
                | Some _ => fs
                | None => <[filename:=EmptyString]> fs
                end) in *.
    assert (Hfs1 : match fs !! filename with
                   | Some _ => Ok fs
                   | None => Ok (<[filename:=EmptyString]> fs)
                   end = Ok fs1)
      by (subst fs1; destruct (fs !! filename); reflexivity).
    assert (H2 : is_Some (fs1 !! filename)).
    { subst fs1. destruct (fs !! filename) eqn:E0; [rewrite E0; eauto |].
      rewrite lookup_insert_eq. eauto. }
    rewrite Hfs1 in E. clearbody fs1. clear Hfs1.
    destruct H2 as [orig H2]. rewrite H2 in E.
    destruct (0 <? String.length orig) eqn:Hsz.
    - cbn [default from_option id] in E.
      destruct (get_last orig) as [b Hb].
      { intros ->. discriminate. }
      rewrite Hb in E. destruct (negb (Ascii.eqb LF b)); inversion E; reflexivity.
    - inversion E; reflexivity. }
  subst err. split; [reflexivity |].
  eexists. rewrite (AppendLineToFile_success _ _ _ _ _ _ E).
  rewrite <- append_assoc. reflexivity.
Qed.

(** X10. Two successful appends to the same file put their lines next to
    each other: the second finds the newline the first one left and
    writes no separator. *)
Theorem AppendLineToFile_twice (fs fs1 fs2 : FS) (io1 io2 : IOFaults)
    (filename line1 line2 : string) (evs1 evs2 : list event) :
  AppendLineToFile ResolvePlaceholderString AppendingLineToFile_tmpl
    fs io1 filename line1 = (fs1, evs1, None) ->
  AppendLineToFile ResolvePlaceholderString AppendingLineToFile_tmpl
    fs1 io2 filename line2 = (fs2, evs2, None) ->
  exists before,
    fs1 !! filename = Some (before +:+ line1 +:+ newline) /\
    fs2 !! filename = Some (before +:+ line1 +:+ newline +:+ line2 +:+ newline).
Proof.
  intros H1 H2.
  pose proof (AppendLineToFile_success _ _ _ _ _ _ H1) as E1.
  pose proof (AppendLineToFile_success _ _ _ _ _ _ H2) as E2.
  cbn zeta in E1, E2.
  set (orig := default EmptyString (fs !! filename)) in *.
  exists (orig +:+ separator_for orig).
  rewrite append_assoc. split; [exact E1 |].
  rewrite E2, E1. cbn [default from_option id].
  assert (Hsep : separator_for (orig +:+ separator_for orig +:+ line1 +:+ newline)
                 = EmptyString).
  { unfold separator_for at 1.
    rewrite <- !append_assoc, last_byte_append_newline. reflexivity. }
  rewrite Hsep. cbn [String.append].
  rewrite !append_assoc. reflexivity.
Qed.

End AppendCompose.

Lemma AppendLineToFile_twice_witness :
  exists before,
    fst (fst (AppendLineToFile sample_resolve "Appending" sample_fs no_faults
                "/repo/.gitignore" "dist")) !! "/repo/.gitignore"
    = Some (before +:+ "dist" +:+ newline) /\
    fst (fst (AppendLineToFile sample_resolve "Appending"
                (fst (fst (AppendLineToFile sample_resolve "Appending" sample_fs
                             no_faults "/repo/.gitignore" "dist")))
                no_faults "/repo/.gitignore" "build")) !! "/repo/.gitignore"
    = Some (before +:+ "dist" +:+ newline +:+ "build" +:+ newline).
Proof.
  eapply (AppendLineToFile_twice sample_resolve "Appending" sample_fs _ _
            no_faults no_faults "/repo/.gitignore" "dist" "build");
    vm_compute; reflexivity.
Defined.

(** ** The clipboard: what the normalisation keeps *)

Lemma replace_crlf_without (s : string) :
  has_crlf s = false -> ReplaceAll s crlf newline = s.
Proof.
  unfold ReplaceAll. induction s as [|c s IH]; [reflexivity |].
  rewrite has_crlf_cons, replace_from_0. intros H.
  apply orb_false_iff in H as [Hp Hs]. rewrite Hp, (IH Hs). reflexivity.
Qed.

Lemma count_byte_app (b : ascii) (s t : string) :
  count_byte b (s +:+ t) = count_byte b s + count_byte b t.
Proof.
  induction s as [|c s IH]; [reflexivity |].
  rewrite append_cons. cbn [count_byte]. rewrite IH. lia.
Qed.

Lemma length_app_string (s t : string) :
  String.length (s +:+ t) = String.length s + String.length t.
Proof.
  induction s as [|c s IH]; [reflexivity |].
  rewrite append_cons. cbn [String.length]. rewrite IH. reflexivity.
Qed.

(** A measure that is additive over [+:+], on a text joined from pieces. *)
Lemma additive_Join (f : string -> nat) (parts : list string) (sep : string) :
  (forall s t, f (s +:+ t) = f s + f t) ->
  parts <> [] ->
  f (Join parts sep) = sum_over f parts + (length parts - 1) * f sep.
Proof.
  intros Hf. induction parts as [|p [|q rest] IH]; intros Hne.
  - congruence.
  - cbn. lia.
  - rewrite Join_cons_cons, !Hf, IH by discriminate.
    cbn [sum_over foldr length]. lia.
Qed.

Section PasteProperties.

Variable RunWithOutput : string -> string -> result string.
Variable clipboard_ReadAll : result string.

(** X11. A text without a CR LF pair comes back from
    [PasteFromClipboard] as it was read, a lone CR or LF included. *)
Theorem PasteFromClipboard_unchanged (cfg : OSConfig) (evs : list event) (raw : string) :
  read_clipboard RunWithOutput clipboard_ReadAll cfg = (evs, Ok raw) ->
  has_crlf raw = false ->
  PasteFromClipboard RunWithOutput clipboard_ReadAll cfg = (evs, (raw, None)).
Proof.
  intros H Hno. unfold PasteFromClipboard. rewrite H.
  rewrite (replace_crlf_without raw Hno). reflexivity.
Qed.

(** X12. [PasteFromClipboard] neither drops nor adds a line break: the
    text it returns has as many LF bytes as the text read, and is shorter
    by exactly one byte, the CR, for each CR LF pair. *)
Theorem PasteFromClipboard_line_breaks (cfg : OSConfig) (evs : list event) (raw : string) :
  read_clipboard RunWithOutput clipboard_ReadAll cfg = (evs, Ok raw) ->
  exists text,
    PasteFromClipboard RunWithOutput clipboard_ReadAll cfg = (evs, (text, None)) /\
    count_byte LF text = count_byte LF raw /\
    count_byte CR text + (length (split_crlf raw) - 1) = count_byte CR raw /\
    String.length text + (length (split_crlf raw) - 1) = String.length raw.
Proof.
  intros H. unfold PasteFromClipboard. rewrite H.
  eexists. split; [reflexivity |].
  destruct (replace_crlf_split_aux raw) as [-> _].
  destruct (join_split_crlf_aux raw) as [Hraw _].
  destruct (split_crlf_cons raw) as (p & rest & Hs).
  assert (Hne : split_crlf raw <> []) by (rewrite Hs; discriminate).
  clear Hs H. remember (split_crlf raw) as parts eqn:Hparts. clear Hparts.
  subst raw.
  rewrite !(additive_Join (count_byte LF)) by (exact Hne || apply count_byte_app).
  rewrite !(additive_Join (count_byte CR)) by (exact Hne || apply count_byte_app).
  rewrite !(additive_Join String.length) by (exact Hne || apply length_app_string).
  change (count_byte LF newline) with 1. change (count_byte LF crlf) with 1.
  change (count_byte CR newline) with 0. change (count_byte CR crlf) with 1.
  change (String.length newline) with 1. change (String.length crlf) with 2.
  lia.
Qed.

End PasteProperties.

Lemma PasteFromClipboard_unchanged_witness :
  PasteFromClipboard sample_shell (Ok a_lf_b) cfg_read_only
  = ([EvClipboardRead], (a_lf_b, None)).
Proof.
  apply (PasteFromClipboard_unchanged sample_shell (Ok a_lf_b) cfg_read_only);
    reflexivity.
Defined.

Lemma PasteFromClipboard_line_breaks_witness :
  exists text,
    PasteFromClipboard sample_shell (Ok a_lf_b) cfg_copy_only
      = ([EvShell EmptyString EmptyString], (text, None)) /\
    count_byte LF text = count_byte LF a_crlf_b /\
    count_byte CR text + (length (split_crlf a_crlf_b) - 1)
      = count_byte CR a_crlf_b /\
    String.length text + (length (split_crlf a_crlf_b) - 1)
      = String.length a_crlf_b.
Proof.
  apply (PasteFromClipboard_line_breaks sample_shell (Ok a_lf_b) cfg_copy_only).
  reflexivity.
Defined.

(** ** The clipboard: what is logged and what is copied *)





(** ** CreateFileWithContent and the other file operations *)

Section CreateProperties.

Variable ResolvePlaceholderString : string -> list (string * string) -> string.
Variable CreateFileWithContent_tmpl : string.
Variable AppendingLineToFile_tmpl : string.

(** X14. After a successful [CreateFileWithContent] the file holds the
    content and nothing of what it held before, no other file has changed,
    [FileExists] finds the file, and a successful [AppendLineToFile] after
    it gives the content, a newline if the content has a last byte other
    than a newline, the line and a newline. *)
Theorem CreateFileWithContent_then (fs fs' : FS) (cf : CreateFaults)
    (path content : string) (evs : list event) :
  CreateFileWithContent ResolvePlaceholderString CreateFileWithContent_tmpl
    fs cf path content = (fs', evs, None) ->
  fs' !! path = Some content /\
  (forall other, other <> path -> fs' !! other = fs !! other) /\
  FileExists fs' no_faults path = (true, None) /\
  (forall io line fs'' evs',
     AppendLineToFile ResolvePlaceholderString AppendingLineToFile_tmpl
       fs' io path line = (fs'', evs', None) ->
     fs'' !! path
     = Some (content +:+ separator_for content +:+ line +:+ newline)).
Proof.
  unfold CreateFileWithContent, WriteFile. intros H.
  destruct (mkdirall_fault cf); [discriminate |].
  destruct (writefile_fault cf) as [[[n|] e]|]; try discriminate.
  inversion H; subst fs' evs. clear H.
  assert (Hc : <[path:=content]> fs !! path = Some content)
    by apply lookup_insert_eq.
  split; [exact Hc |]. split; [|split].
  - intros other Hne. apply lookup_insert_ne. congruence.
  - unfold FileExists, Stat. cbn [stat_fault no_faults]. rewrite Hc. reflexivity.
  - intros io line fs'' evs' Ha.
    rewrite (AppendLineToFile_success _ _ _ _ _ _ _ _ Ha), Hc. reflexivity.
Qed.

(** X15. When [CreateFileWithContent] fails it has logged the command and
    then the error.  If the directories could not be made, no file has
    changed and the error comes back as it is; if the file could not be
    written, the error comes back wrapped, no other file has changed, and
    the file is as it was or holds a prefix of the content. *)
Theorem CreateFileWithContent_failure (fs fs' : FS) (cf : CreateFaults)
    (path content : string) (evs : list event) (err : error) :
  CreateFileWithContent ResolvePlaceholderString CreateFileWithContent_tmpl
    fs cf path content = (fs', evs, Some err) ->
  (exists cause,
     evs = LogCommand (ResolvePlaceholderString CreateFileWithContent_tmpl
                         [("path", path)]) false ++ [EvLogError cause] /\
     ((mkdirall_fault cf = Some cause /\ err = cause /\ fs' = fs) \/
      (mkdirall_fault cf = None /\ err = WrapError cause))) /\
  (forall other, other <> path -> fs' !! other = fs !! other) /\
  (fs' !! path = fs !! path \/
   exists n, fs' !! path = Some (String.substring 0 n content)).
Proof.
  unfold CreateFileWithContent, WriteFile. intros H.
  destruct (mkdirall_fault cf) as [e|].
  - inversion H; subst. split; [eauto 10 |]. split; [reflexivity | left; reflexivity].
  - destruct (writefile_fault cf) as [[[n|] e]|]; inversion H; subst.
    + split; [eauto 10 |]. split.
      * intros other Hne. apply lookup_insert_ne. congruence.
      * right. exists n. apply lookup_insert_eq.
    + split; [eauto 10 |]. split; [reflexivity | left; reflexivity].
Qed.

End CreateProperties.

Lemma CreateFileWithContent_then_witness :
  fst (fst (CreateFileWithContent sample_resolve "Creating" sample_fs
              no_create_faults "/repo/.gitignore" "target"))
    !! "/repo/.gitignore" = Some "target" /\
  (forall other, other <> "/repo/.gitignore" ->
     fst (fst (CreateFileWithContent sample_resolve "Creating" sample_fs
                 no_create_faults "/repo/.gitignore" "target")) !! other
     = sample_fs !! other) /\
  FileExists (fst (fst (CreateFileWithContent sample_resolve "Creating" sample_fs
                          no_create_faults "/repo/.gitignore" "target")))
    no_faults "/repo/.gitignore" = (true, None).
Proof.
  destruct (CreateFileWithContent_then sample_resolve "Creating" "Appending"
              sample_fs
              (fst (fst (CreateFileWithContent sample_resolve "Creating" sample_fs
                           no_create_faults "/repo/.gitignore" "target")))
              no_create_faults "/repo/.gitignore" "target"
              (LogCommand "Creating" false) eq_refl) as (H1 & H2 & H3 & _).
  auto.
Defined.

Lemma CreateFileWithContent_failure_witness :
  fst (fst (CreateFileWithContent sample_resolve "Creating" sample_fs
              {| mkdirall_fault := Some ErrPermission; writefile_fault := None |}
              "/repo/new/file" "x")) !! "/repo/new/file"
  = sample_fs !! "/repo/new/file" \/
  exists n,
    fst (fst (CreateFileWithContent sample_resolve "Creating" sample_fs
                {| mkdirall_fault := Some ErrPermission; writefile_fault := None |}
                "/repo/new/file" "x")) !! "/repo/new/file"
    = Some (String.substring 0 n "x").
Proof.
  refine (proj2 (proj2 (CreateFileWithContent_failure sample_resolve "Creating"
            sample_fs _
            {| mkdirall_fault := Some ErrPermission; writefile_fault := None |}
            "/repo/new/file" "x" _ ErrPermission _))).
  reflexivity.
Defined.

(** ** The editors *)

Section EditorProperties.

Variable Key : Type.
Context `{EqDecision Key}.
Variables KeyBackspace KeyBackspace2 KeyCtrlD KeyDelete : Key.
Variables KeyArrowDown KeyArrowUp KeyArrowLeft KeyArrowRight : Key.
Variables KeyTab KeySpace KeyInsert KeyCtrlU KeyCtrlA KeyCtrlE : Key.
Variable IsPrint : Z -> bool.

Let commit := commitMessageEditor Key KeyBackspace KeyBackspace2 KeyCtrlD KeyDelete
  KeyArrowDown KeyArrowUp KeyArrowLeft KeyArrowRight
  KeyTab KeySpace KeyInsert KeyCtrlU KeyCtrlA KeyCtrlE IsPrint.
Let plain := defaultEditor Key KeyBackspace KeyBackspace2 KeyCtrlD KeyDelete
  KeyArrowDown KeyArrowUp KeyArrowLeft KeyArrowRight
  KeySpace KeyInsert KeyCtrlU KeyCtrlA KeyCtrlE IsPrint.
Let newlineKey := newline_key Key KeyTab.
Let shadowing := keys_before_newline Key KeyBackspace KeyBackspace2 KeyCtrlD
  KeyDelete KeyArrowDown KeyArrowUp KeyArrowLeft KeyArrowRight.

(** X16. On every key other than the newline key [commitMessageEditor]
    and [defaultEditor] make the same call on the view, or both none; and
    both report every key as matched. *)
Theorem editors_agree (configured : option Key) (findSuggestions : bool)
    (key : Key) (ch : Z) :
  key <> newlineKey configured ->
  fst (fst (commit configured key ch)) = fst (fst (plain findSuggestions key ch)) /\
  snd (commit configured key ch) = true /\
  snd (plain findSuggestions key ch) = true.
Proof.
  intros Hne. subst commit plain newlineKey.
  unfold commitMessageEditor, defaultEditor, commit_switch, default_switch.
  cbn [fst snd]. rewrite (bool_decide_eq_false_2 _ Hne). auto.
Qed.

(** X17. The case of the newline key comes after the cases of the delete
    and arrow keys.  So when the newline key is one of those keys, no key
    press makes [commitMessageEditor] insert a new line; when it is none of
    them, the newline key inserts a new line whatever the character. *)
Theorem newline_key_shadowed (configured : option Key) :
  (newlineKey configured ∈ shadowing ->
   forall key ch, fst (fst (commit configured key ch)) <> Some EditNewLine) /\
  (newlineKey configured ∉ shadowing ->
   forall ch, fst (fst (commit configured (newlineKey configured) ch))
              = Some EditNewLine).
Proof.
  subst commit newlineKey shadowing.
  unfold commitMessageEditor, commit_switch, keys_before_newline. cbn [fst snd].
  set (nk := newline_key Key KeyTab configured).
  split.
  - intros Hin key ch.
    destruct (bool_decide (key = KeyBackspace) || bool_decide (key = KeyBackspace2))
      eqn:E1; [discriminate |].
    destruct (bool_decide (key = KeyCtrlD) || bool_decide (key = KeyDelete))
      eqn:E2; [discriminate |].
    destruct (bool_decide (key = KeyArrowDown)) eqn:E3; [discriminate |].
    destruct (bool_decide (key = KeyArrowUp)) eqn:E4; [discriminate |].
    destruct (bool_decide (key = KeyArrowLeft)) eqn:E5; [discriminate |].
    destruct (bool_decide (key = KeyArrowRight)) eqn:E6; [discriminate |].
    destruct (bool_decide (key = nk)) eqn:E7.
    + exfalso. apply bool_decide_eq_true in E7. subst key.
      apply orb_false_iff in E1 as [E1a E1b].
      apply orb_false_iff in E2 as [E2a E2b].
      apply bool_decide_eq_false in E1a, E1b, E2a, E2b, E3, E4, E5, E6.
      repeat (apply elem_of_cons in Hin as [Hin|Hin]; [congruence |]).
      inversion Hin.
    + destruct (bool_decide (key = KeySpace)); [discriminate |].
      destruct (bool_decide (key = KeyInsert)); [discriminate |].
      destruct (bool_decide (key = KeyCtrlU)); [discriminate |].
      destruct (bool_decide (key = KeyCtrlA)); [discriminate |].
      destruct (bool_decide (key = KeyCtrlE)); [discriminate |].
      destruct (IsPrint ch); discriminate.
  - intros Hnot ch.
    assert (Hall : forall k, k ∈ [KeyBackspace; KeyBackspace2; KeyCtrlD; KeyDelete;
                     KeyArrowDown; KeyArrowUp; KeyArrowLeft; KeyArrowRight] ->
                   nk <> k).
    { intros k Hk ->. exact (Hnot Hk). }
    rewrite (bool_decide_eq_false_2 (nk = KeyBackspace)) by (apply Hall; set_solver).
    rewrite (bool_decide_eq_false_2 (nk = KeyBackspace2)) by (apply Hall; set_solver).
    rewrite (bool_decide_eq_false_2 (nk = KeyCtrlD)) by (apply Hall; set_solver).
    rewrite (bool_decide_eq_false_2 (nk = KeyDelete)) by (apply Hall; set_solver).
    rewrite (bool_decide_eq_false_2 (nk = KeyArrowDown)) by (apply Hall; set_solver).
    rewrite (bool_decide_eq_false_2 (nk = KeyArrowUp)) by (apply Hall; set_solver).
    rewrite (bool_decide_eq_false_2 (nk = KeyArrowLeft)) by (apply Hall; set_solver).
    rewrite (bool_decide_eq_false_2 (nk = KeyArrowRight)) by (apply Hall; set_solver).
    cbn [orb]. rewrite bool_decide_eq_true_2 by reflexivity. reflexivity.
Qed.

End EditorProperties.

Lemma editors_agree_witness :
  fst (fst (sample_commit_editor None 10 0%Z))
    = fst (fst (sample_default_editor false 10 0%Z)) /\
  snd (sample_commit_editor None 10 0%Z) = true /\
  snd (sample_default_editor false 10 0%Z) = true.
Proof.
  apply (@editors_agree nat _ 1 2 3 4 5 6 7 8 9 10 11 12 13 14 (fun _ => true)
           None false 10 0%Z).
  cbn. lia.
Defined.

Lemma newline_key_shadowed_witness :
  fst (fst (sample_commit_editor (Some 1) 1 0%Z)) <> Some EditNewLine /\
  fst (fst (sample_commit_editor None 9 0%Z)) = Some EditNewLine.
Proof.
  split.
  - apply (proj1 (@newline_key_shadowed nat _ 1 2 3 4 5 6 7 8 9 10 11 12 13 14
                    (fun _ => true) (Some 1))).
    cbn. left.
  - apply (proj2 (@newline_key_shadowed nat _ 1 2 3 4 5 6 7 8 9 10 11 12 13 14
                    (fun _ => true) None)).
    cbn. intros Hin.
    repeat (apply elem_of_cons in Hin as [Hin|Hin]; [lia |]).
    inversion Hin.
Defined.

(** ** The pipeline: failures are logged *)

Lemma Step_events_grow (procs : list Proc) (t : tid) (st st' : State) (e : event) :
  Step procs t st st' -> e ∈ events st -> e ∈ events st'.
Proof.
  intros HS He. destruct (Step_events _ _ _ _ HS) as (evs & -> & _).
  apply elem_of_app. left. exact He.
Qed.

Lemma Start_fresh (c : Cmd) (fault : option error) :
  Process c = false ->
  Process (fst (Start c fault)) = match fault with Some _ => false | None => true end /\
  snd (Start c fault) = fault.
Proof.
  intros H. unfold Start. rewrite H. destruct fault; cbn; auto.
Qed.

Lemma Wait_outcome (c : Cmd) (p : Proc) :
  Process c = match start_err p with Some _ => false | None => true end ->
  Wait c (wait_err p) = wait_outcome p.
Proof.
  intros H. unfold Wait, wait_outcome. rewrite H.
  destruct (start_err p); reflexivity.
Qed.

Lemma log_error_elem (e : error) : EvLogError e ∈ log_error (Some e).
Proof. left. Qed.

Lemma linv_Step (procs : list Proc) (t : tid) (st st' : State) :
  inv procs st -> linv procs st -> Step procs t st st' -> linv procs st'.
Proof.
  intros I L HS.
  assert (Hgrow : forall e, e ∈ events st -> e ∈ events st')
    by (intros e; apply (Step_events_grow _ _ _ _ _ HS)).
  destruct t as [|j].
  - (* the caller: the commands are as they were, a launched goroutine has
       not started its process *)
    pose proof (Step_Main_cmds _ _ _ HS) as Hc.
    assert (Hgs : forall i g, gs st' !! i = Some g ->
              exists g0, gs st !! i = Some g0 /\
                started_g g = started_g g0 /\ waited_g g = waited_g g0).
    { intros i g Hg. inversion HS; subst; st_simpl; eauto.
      destruct (inv_spawn _ _ I k H) as (_ & Hge & _).
      destruct (lookup_lt_is_Some_2 (gs st) k H0) as [g0 Hg0].
      pose proof (Hge k g0 (le_n _) Hg0); subst g0.
      destruct (decide (i = k)) as [->|Hne].
      - rewrite list_lookup_insert_eq in Hg by assumption.
        inversion Hg; subst. eauto.
      - rewrite list_lookup_insert_ne in Hg by congruence. eauto. }
    constructor.
    + intros i g c Hg Hs Hci. rewrite Hc in Hci.
      destruct (Hgs i g Hg) as (g0 & Hg0 & E1 & _).
      eapply (linv_fresh _ _ L); [exact Hg0 | congruence | exact Hci].
    + intros i g c p Hg Hs Hci Hp. rewrite Hc in Hci.
      destruct (Hgs i g Hg) as (g0 & Hg0 & E1 & _).
      eapply (linv_process _ _ L); [exact Hg0 | congruence | exact Hci | exact Hp].
    + intros i g p e Hg Hs Hp He. apply Hgrow.
      destruct (Hgs i g Hg) as (g0 & Hg0 & E1 & _).
      eapply (linv_start _ _ L); [exact Hg0 | congruence | exact Hp | exact He].
    + intros i g p e Hg Hs Hp He. apply Hgrow.
      destruct (Hgs i g Hg) as (g0 & Hg0 & _ & E2).
      eapply (linv_wait _ _ L); [exact Hg0 | congruence | exact Hp | exact He].
  - destruct (Step_G_gs _ _ _ _ HS) as (g0 & g1 & Hg0 & Hgs & _).
    assert (Hother : forall i, i <> j ->
              gs st' !! i = gs st !! i /\ cmds st' !! i = cmds st !! i).
    { intros i Hne. split; [|apply (Step_G_cmds _ _ _ _ i HS Hne)].
      rewrite Hgs. apply list_lookup_insert_ne. congruence. }
    clear Hg0 Hgs.
    constructor.
    + intros i g c Hg Hs Hci.
      destruct (decide (i = j)) as [->|Hne].
      * inversion HS; subst; st_simpl;
          rewrite list_lookup_insert_eq in Hg by (eapply lookup_lt_Some; eassumption);
          inversion Hg; subst g; try discriminate Hs.
        -- (* StderrPipe *)
           rewrite list_lookup_insert_eq in Hci by (eapply lookup_lt_Some; eassumption).
           inversion Hci; subst c.
           match goal with
           | Hp : StderrPipe _ _ _ = Ok _ |- _ => apply StderrPipe_Ok in Hp; subst
           end.
           cbn [set_Stderr Process].
           eapply (linv_fresh _ _ L); [eassumption | reflexivity | eassumption].
        -- eapply (linv_fresh _ _ L); [eassumption | reflexivity | eassumption].
      * destruct (Hother i Hne) as [E1 E2]. rewrite E1 in Hg. rewrite E2 in Hci.
        eapply (linv_fresh _ _ L); eassumption.
    + intros i g c p Hg Hs Hci Hp.
      destruct (decide (i = j)) as [->|Hne].
      * inversion HS; subst; st_simpl;
          rewrite list_lookup_insert_eq in Hg by (eapply lookup_lt_Some; eassumption);
          inversion Hg; subst g; try discriminate Hs;
          try (eapply (linv_process _ _ L); [eassumption | reflexivity
                                            | eassumption | eassumption]).
        (* Start *)
        rewrite list_lookup_insert_eq in Hci by (eapply lookup_lt_Some; eassumption).
        inversion Hci; subst c.
        match goal with
        | Hp' : procs !! j = Some ?p' |- _ =>
            rewrite Hp' in Hp; inversion Hp; subst p'
        end.
        apply Start_fresh.
        eapply (linv_fresh _ _ L); [eassumption | reflexivity | eassumption].
      * destruct (Hother i Hne) as [E1 E2]. rewrite E1 in Hg. rewrite E2 in Hci.
        eapply (linv_process _ _ L); eassumption.
    + intros i g p e Hg Hs Hp He.
      destruct (decide (i = j)) as [->|Hne].
      * inversion HS; subst; st_simpl;
          rewrite list_lookup_insert_eq in Hg by (eapply lookup_lt_Some; eassumption);
          inversion Hg; subst g; try discriminate Hs;
          try (apply Hgrow; eapply (linv_start _ _ L);
               [eassumption | reflexivity | exact Hp | exact He]).
        (* Start *)
        match goal with
        | Hp' : procs !! j = Some ?p' |- _ =>
            rewrite Hp' in Hp; inversion Hp; subst p'
        end.
        match goal with
        | Hc : cmds st !! j = Some ?c |- _ =>
            destruct (Start_fresh c (start_err p)) as [_ Hsnd];
            [eapply (linv_fresh _ _ L); [eassumption | reflexivity | exact Hc] |]
        end.
        rewrite Hsnd, He. apply elem_of_app. right. right. left.
      * destruct (Hother i Hne) as [E1 _]. rewrite E1 in Hg.
        apply Hgrow. eapply (linv_start _ _ L); eassumption.
    + intros i g p e Hg Hs Hp He.
      destruct (decide (i = j)) as [->|Hne].
      * inversion HS; subst; st_simpl;
          rewrite list_lookup_insert_eq in Hg by (eapply lookup_lt_Some; eassumption);
          inversion Hg; subst g; try discriminate Hs.
        -- (* Wait *)
           match goal with
           | Hp' : procs !! j = Some ?p' |- _ =>
               rewrite Hp' in Hp; inversion Hp; subst p'
           end.
           match goal with
           | Hc : cmds st !! j = Some ?c |- _ =>
               rewrite (Wait_outcome c p)
                 by (eapply (linv_process _ _ L);
                     [eassumption | reflexivity | exact Hc | eassumption])
           end.
           rewrite He. apply elem_of_app. right. right. left.
        -- (* Done *)
           apply Hgrow.
           eapply (linv_wait _ _ L); [eassumption | reflexivity | exact Hp | exact He].
      * destruct (Hother i Hne) as [E1 _]. rewrite E1 in Hg.
        apply Hgrow. eapply (linv_wait _ _ L); eassumption.
Qed.

Lemma linv_start_state (cmdObjs : list CmdObj) :
  Forall (fun o => Process (GetCmd o) = false) cmdObjs ->
  linv (map proc cmdObjs) (start_state cmdObjs).
Proof.
  intros Hf.
  destruct (start_state_fields cmdObjs) as (Hgs & _ & _ & Hcs & _ & _).
  assert (Hun : forall i g, gs (start_state cmdObjs) !! i = Some g ->
            started_g g = false /\ waited_g g = false).
  { intros i g Hg. rewrite Hgs in Hg.
    apply lookup_replicate_unspawned in Hg. subst. auto. }
  constructor.
  - intros i g c _ _ Hc. rewrite Hcs in Hc. unfold wire in Hc.
    destruct (wire_loop _ _ _ _ _) as [[cs next] err] eqn:Hw.
    apply wire_loop_spec in Hw as [_ Hall]. cbn in Hc.
    destruct (Hall i c Hc) as (c1 & Hc1 & _ & -> & _).
    rewrite list_lookup_fmap in Hc1.
    destruct (cmdObjs !! i) as [o|] eqn:Ho; [|discriminate].
    inversion Hc1; subst c1.
    rewrite Forall_forall in Hf. apply Hf.
    eapply list_elem_of_lookup_2, Ho.
  - intros i g c p Hg Hs. destruct (Hun i g Hg). congruence.
  - intros i g p e Hg Hs. destruct (Hun i g Hg). congruence.
  - intros i g p e Hg Hs. destruct (Hun i g Hg). congruence.
Qed.

Lemma linv_exec (procs : list Proc) (sched : list tid) (st st' : State) :
  inv procs st -> linv procs st -> exec procs sched st = Some st' ->
  linv procs st'.
Proof.
  revert st. induction sched as [|t sched IH]; intros st I L H; cbn in H.
  - inversion H; subst. exact L.
  - destruct (step procs t st) as [st1|] eqn:Hs; [|discriminate].
    apply step_Step in Hs as [HS _].
    apply (IH st1); [eapply inv_Step | eapply linv_Step | exact H]; eassumption.
Qed.

(** X18. No failure of [cmd.Start()] or [cmd.Wait()] is lost: when a
    wired run of [PipeCommands] over commands that were not started
    returns, the log holds an error record for the [Start] error of every
    stage that could not be started, together with the complaint of
    [Wait] on such a stage, and for the [Wait] error of every stage that
    was started and failed. *)
Theorem PipeCommands_failures_logged (cmdObjs : list CmdObj) (sched : list tid)
    (st : State) (r : option error) :
  Forall (fun o => Process (GetCmd o) = false) cmdObjs ->
  wiring_error cmdObjs = None ->
  PipeCommands cmdObjs sched = Some st ->
  returned st = Some r ->
  forall i o e, cmdObjs !! i = Some o ->
    (start_err (proc o) = Some e ->
       EvLogError e ∈ events st /\
       EvLogError (ErrOther "exec: not started") ∈ events st) /\
    (start_err (proc o) = None -> wait_err (proc o) = Some e ->
       EvLogError e ∈ events st).
Proof.
  intros Hf Hw H Hret i o e Ho.
  pose proof (PipeCommands_inv _ _ _ Hw H) as I.
  pose proof (linv_exec _ _ _ _ (inv_start _ Hw) (linv_start_state _ Hf) H) as L.
  apply returned_main in Hret.
  destruct (inv_ret _ _ I r Hret) as [_ Hwg].
  destruct (lookup_lt_is_Some_2 (gs st) i) as [g Hg].
  { rewrite (inv_gs _ _ I), length_map. eapply lookup_lt_Some, Ho. }
  assert (g = GExited) as ->.
  { eapply live_0; [|exact Hg]. rewrite <- (inv_wg _ _ I). exact Hwg. }
  assert (Hp : map proc cmdObjs !! i = Some (proc o)).
  { change ((proc <$> cmdObjs) !! i = Some (proc o)).
    rewrite list_lookup_fmap, Ho. reflexivity. }
  split.
  - intros He. split.
    + apply (linv_start _ _ L i GExited (proc o) e Hg eq_refl Hp He).
    + apply (linv_wait _ _ L i GExited (proc o) _ Hg eq_refl Hp).
      unfold wait_outcome. rewrite He. reflexivity.
  - intros Hs He.
    apply (linv_wait _ _ L i GExited (proc o) e Hg eq_refl Hp).
    unfold wait_outcome. rewrite Hs. exact He.
Qed.

Lemma PipeCommands_failures_logged_witness :
  EvLogError (ErrOther "fork/exec /bin/nosuch: no such file or directory")
    ∈ events (final_state [cmd_unstartable; cmd_false]
                (seq_sched [cmd_unstartable; cmd_false])) /\
  EvLogError (ErrOther "exec: not started")
    ∈ events (final_state [cmd_unstartable; cmd_false]
                (seq_sched [cmd_unstartable; cmd_false])).
Proof.
  refine (proj1 (PipeCommands_failures_logged [cmd_unstartable; cmd_false]
            (seq_sched [cmd_unstartable; cmd_false])
            (final_state [cmd_unstartable; cmd_false]
               (seq_sched [cmd_unstartable; cmd_false]))
            None _ _ _ _ 0 cmd_unstartable _ _) _).
  - repeat constructor.
  - vm_compute. reflexivity.
  - vm_compute. reflexivity.
  - vm_compute. reflexivity.
  - reflexivity.
  - reflexivity.
Defined.
